(** * taichi-splatting: the backward rasterizer kernel and the 2D renderer front end

    A shallow embedding of
      - [src/taichi_splatting/rasterizer/backward.py]  ([Config], [backward_kernel])
      - [src/taichi_splatting/renderer2d.py]           ([pad_to_tile], [render_gaussians])
    followed by the properties of the specification that concern them.

    Conventions.
      - Taichi [i32] values are integers in [Z]; every arithmetic operation
        wraps around modulo 2^32 (module [I32]).
      - Taichi [f32] values are elements of an arbitrary carrier [R] equipped
        with the operations the kernel uses (class [Scalar]); the structural
        theorems hold for every such carrier, the numeric ones are proved over
        the rationals (instance [QScalar]).
      - ndarrays are lists, read and written by index; an index outside the
        array is an error ([OutOfBounds]).
      - Taichi vectors are lists of scalars; an elementwise operation between
        vectors of different sizes is an error ([ShapeMismatch]).
      - Python integers are [Z]; Python floats (binary64) appear only in
        [pad_to_tile], as the quotient of two integers: a mantissa and an
        exponent, the exact quotient rounded to nearest, ties to even (module
        [Binary64]). *)

From Stdlib Require Import ZArith QArith Qminmax List FinFun Bool Lia Lqa.
From Stdlib Require String.
Import ListNotations.
Local Open Scope Z_scope.

(* ------------------------------------------------------------------------- *)
(** ** Errors *)

Inductive error : Type :=
| ShapeMismatch   (* elementwise operation on vectors of different sizes *)
| OutOfBounds     (* ndarray index outside the array *)
| Uninitialised   (* read of a shared-memory slot that was never written *)
| FloatOverflow   (* Python: OverflowError of int / int *)
| ZeroDivision.   (* Python: ZeroDivisionError *)

Inductive result (A : Type) : Type :=
| Ok (a : A)
| Err (e : error).
Arguments Ok {A} a.
Arguments Err {A} e.

Definition bind {A B} (c : result A) (k : A -> result B) : result B :=
  match c with
  | Ok a => k a
  | Err e => Err e
  end.

Notation "x <- c ;; k" := (bind c (fun x => k))
  (at level 61, c at next level, right associativity).

Definition result_map {A B} (f : A -> B) (c : result A) : result B :=
  match c with
  | Ok a => Ok (f a)
  | Err e => Err e
  end.

(** A loop [for x in xs: st = body(x, st)] whose body may fail. *)
Fixpoint foldM {A S} (body : A -> S -> result S) (xs : list A) (st : S) : result S :=
  match xs with
  | [] => Ok st
  | x :: xs' => st' <- body x st ;; foldM body xs' st'
  end.

(** [range(n)]: 0, 1, ..., n-1; empty when [n <= 0]. *)
Definition range (n : Z) : list Z := map Z.of_nat (seq 0 (Z.to_nat n)).

(* ------------------------------------------------------------------------- *)
(** ** 32-bit signed integers *)

Module I32.
Definition modulus : Z := 4294967296.
Definition half : Z := 2147483648.
Definition max_int : Z := 2147483647.
Definition min_int : Z := -2147483648.

Definition wrap (z : Z) : Z := (z + half) mod modulus - half.

Definition add (a b : Z) : Z := wrap (a + b).
Definition sub (a b : Z) : Z := wrap (a - b).
Definition mul (a b : Z) : Z := wrap (a * b).
(** Taichi's [//] is floor division. *)
Definition floordiv (a b : Z) : Z := wrap (a / b).

Definition in_range (z : Z) : Prop := min_int <= z <= max_int.
End I32.

(* ------------------------------------------------------------------------- *)
(** ** ndarrays *)

Definition aget {X} (a : list X) (i : Z) : result X :=
  if i <? 0 then Err OutOfBounds
  else match nth_error a (Z.to_nat i) with
       | Some x => Ok x
       | None => Err OutOfBounds
       end.

Fixpoint update {X} (a : list X) (n : nat) (x : X) : list X :=
  match a, n with
  | [], _ => []
  | _ :: a', O => x :: a'
  | y :: a', S n' => y :: update a' n' x
  end.

Definition aset {X} (a : list X) (i : Z) (x : X) : result (list X) :=
  if i <? 0 then Err OutOfBounds
  else if Nat.ltb (Z.to_nat i) (length a) then Ok (update a (Z.to_nat i) x)
  else Err OutOfBounds.

(** Two-dimensional ndarrays, indexed [a[y, x]]: a list of rows. *)
Definition aget2 {X} (a : list (list X)) (y x : Z) : result X :=
  row <- aget a y ;; aget row x.

Definition aset2 {X} (a : list (list X)) (y x : Z) (v : X) : result (list (list X)) :=
  row <- aget a y ;; row' <- aset row x v ;; aset a y row'.

(** [a.shape] of a two-dimensional ndarray. *)
Definition shape2 {X} (a : list (list X)) : Z * Z :=
  (Z.of_nat (length a), Z.of_nat (length (hd [] a))).

(* ------------------------------------------------------------------------- *)
(** ** Scalars ([ti.f32]) and vectors *)

Class Scalar (R : Type) : Type := {
  lit  : Q -> R;            (* a float constant of the program text *)
  ofZ  : Z -> R;            (* ti.cast(i, ti.f32) *)
  sadd : R -> R -> R;
  ssub : R -> R -> R;
  smul : R -> R -> R;
  sdiv : R -> R -> R;
  sltb : R -> R -> bool;    (* a < b *)
  smin : R -> R -> R        (* ti.min(a, b) *)
}.

Declare Scope scalar_scope.
Delimit Scope scalar_scope with S.
Infix "+!" := sadd (at level 50, left associativity) : scalar_scope.
Infix "-!" := ssub (at level 50, left associativity) : scalar_scope.
Infix "*!" := smul (at level 40, left associativity) : scalar_scope.
Infix "/!" := sdiv (at level 40, left associativity) : scalar_scope.
Infix "<?!" := sltb (at level 70, no associativity) : scalar_scope.

Definition Qltb (a b : Q) : bool := negb (Qle_bool b a).

(** The rationals, with the division left open: [QScalar_with d] divides with
    [d].  [QScalar] is the field of rationals. *)
Definition QScalar_with (d : Q -> Q -> Q) : Scalar Q := {|
  lit := fun q => q;
  ofZ := inject_Z;
  sadd := Qplus;
  ssub := Qminus;
  smul := Qmult;
  sdiv := d;
  sltb := Qltb;
  smin := Qmin
|}.

Definition QScalar : Scalar Q := QScalar_with Qdiv.

Definition vec (R : Type) : Type := list R.

Section Vectors.
Context {R : Type} {SR : Scalar R}.
Local Open Scope scalar_scope.

(** [vec(c)]: the vector of size [n] filled with [c]. *)
Definition vfill (n : nat) (c : R) : vec R := repeat c n.

(** vector (op) scalar and scalar (op) vector broadcast. *)
Definition vmuls (a : vec R) (s : R) : vec R := map (fun x => x *! s) a.
Definition vdivs (a : vec R) (s : R) : vec R := map (fun x => x /! s) a.
Definition smulv (s : R) (a : vec R) : vec R := map (fun x => s *! x) a.

(** vector (op) vector is elementwise and needs equal sizes. *)
Fixpoint vzip (op : R -> R -> R) (a b : vec R) : result (vec R) :=
  match a, b with
  | [], [] => Ok []
  | x :: a', y :: b' => r <- vzip op a' b' ;; Ok (op x y :: r)
  | _, _ => Err ShapeMismatch
  end.

(** The elementwise operation on vectors of one size, as a total function. *)
Definition zipw (op : R -> R -> R) (a b : vec R) : vec R :=
  map (fun xy => op (fst xy) (snd xy)) (combine a b).

Definition vadd : vec R -> vec R -> result (vec R) := vzip sadd.
Definition vsub : vec R -> vec R -> result (vec R) := vzip ssub.
Definition vmul : vec R -> vec R -> result (vec R) := vzip smul.

(** [v.sum()] *)
Definition vsum (a : vec R) : R := fold_left sadd a (lit 0%Q).
End Vectors.

(* ------------------------------------------------------------------------- *)
(** ** [Config] (backward.py, lines 11-16) *)

Record Config : Type := {
  tile_size : Z;
  clamp_max_alpha : Q;
  alpha_threshold : Q;
  saturate_threshold : Q
}.

(** The constructor the [@dataclass] decorator generates: every field is a
    keyword argument with a default, and the body only stores the fields. *)
Definition Config_init (tile_size' : option Z)
  (clamp_max_alpha' alpha_threshold' saturate_threshold' : option Q) : Config := {|
  tile_size := match tile_size' with Some t => t | None => 16 end;
  clamp_max_alpha := match clamp_max_alpha' with Some a => a | None => 99 # 100 end;
  alpha_threshold := match alpha_threshold' with Some a => a | None => 1 / 255 end;
  saturate_threshold := match saturate_threshold' with Some a => a | None => 9999 # 10000 end
|}%Q.

(** [Config()] *)
Definition Config_default : Config := Config_init None None None None.

(* ------------------------------------------------------------------------- *)
(** ** The packed 2D Gaussian *)

(** Modelled from the spec: [taichi_splatting.data_types.Gaussian2D] is not
    among the sources.  The specification describes the packed primitive as the
    fixed-size record {mean(2), conic(3), opacity(1)}; [G2D_pack] builds it from
    its three parts and [G2D_unpack] returns them. *)
Record Gaussian2D (R : Type) : Type := G2D_pack {
  g_mean : R * R;
  g_conic : R * R * R;
  g_alpha : R
}.
Arguments G2D_pack {R}.
Arguments g_mean {R}.
Arguments g_conic {R}.
Arguments g_alpha {R}.

Definition G2D_unpack {R} (p : Gaussian2D R) : (R * R) * (R * R * R) * R :=
  (g_mean p, g_conic p, g_alpha p).

Section Packed.
Context {R : Type} {SR : Scalar R}.
Local Open Scope scalar_scope.

Definition scale2 (s : R) (a : R * R) : R * R :=
  let '(x, y) := a in (s *! x, s *! y).
Definition scale3 (s : R) (a : R * R * R) : R * R * R :=
  let '(x, y, z) := a in (s *! x, s *! y, s *! z).
Definition add2 (a b : R * R) : R * R :=
  let '(x, y) := a in let '(x', y') := b in (x +! x', y +! y').
Definition add3 (a b : R * R * R) : R * R * R :=
  let '(x, y, z) := a in let '(x', y', z') := b in (x +! x', y +! y', z +! z').

(** [s * p] and [p + q] on packed Gaussians (six-component vectors). *)
Definition G2D_scale (s : R) (p : Gaussian2D R) : Gaussian2D R :=
  G2D_pack (scale2 s (g_mean p)) (scale3 s (g_conic p)) (s *! g_alpha p).
Definition G2D_add (p q : Gaussian2D R) : Gaussian2D R :=
  G2D_pack (add2 (g_mean p) (g_mean q)) (add3 (g_conic p) (g_conic q))
           (g_alpha p +! g_alpha q).
End Packed.

(* ------------------------------------------------------------------------- *)
(** ** The kernel's arguments *)

(** Read-only arguments. *)
Record Inputs (R : Type) : Type := {
  points : list (Gaussian2D R);            (* (M, 6) *)
  point_features : list (vec R);           (* (M, F) *)
  tile_overlap_ranges : list (Z * Z);      (* (TH * TW) start/end *)
  overlap_to_point : list Z;               (* (K) *)
  grad_image_feature : list (list (vec R)) (* (H, W, F) *)
}.
Arguments points {R}.
Arguments point_features {R}.
Arguments tile_overlap_ranges {R}.
Arguments overlap_to_point {R}.
Arguments grad_image_feature {R}.

(** Output gradients. *)
Record Grads (R : Type) : Type := {
  grad_points : list (Gaussian2D R);       (* (M, 6) *)
  grad_point_features : list (vec R)       (* (M, F) *)
}.
Arguments Build_Grads {R}.
Arguments grad_points {R}.
Arguments grad_point_features {R}.

(** The arrays the kernel writes: the state saved by the forward pass and the
    output gradients. *)
Record Memory (R : Type) : Type := {
  image_feature : list (list (vec R));     (* (H, W, F) *)
  image_alpha : list (list R);             (* (H, W) *)
  image_last_valid : list (list Z);        (* (H, W) *)
  grads : Grads R
}.
Arguments Build_Memory {R}.
Arguments image_feature {R}.
Arguments image_alpha {R}.
Arguments image_last_valid {R}.
Arguments grads {R}.

(** The two block-shared arrays, [tile_area] slots each; a slot is [None] until
    it is written. *)
Record Shared (R : Type) : Type := {
  tile_point : list (option (Gaussian2D R));
  tile_feature : list (option (vec R))
}.
Arguments Build_Shared {R}.
Arguments tile_point {R}.
Arguments tile_feature {R}.

Definition sget {X} (a : list (option X)) (i : Z) : result X :=
  s <- aget a i ;;
  match s with
  | Some x => Ok x
  | None => Err Uninitialised
  end.

(** The registers of one pixel's walk, with the gradient buffers it adds to. *)
Record Walk (R : Type) : Type := {
  T_i : R;
  w_i : vec R;
  walk_grads : Grads R
}.
Arguments Build_Walk {R}.
Arguments T_i {R}.
Arguments w_i {R}.
Arguments walk_grads {R}.

(* ------------------------------------------------------------------------- *)
(** ** [_backward_kernel] (backward.py, lines 25-159) *)

Section Backward.
Context {R : Type} {SR : Scalar R}.

(** [taichi_splatting.ti.covariance.conic_pdf_with_grad] is not among the
    sources; the kernel is modelled for an arbitrary such function.  It maps the
    sample position, the mean and the conic to the density and its derivatives
    with respect to the mean and the conic. *)
Variable conic_pdf_with_grad :
  R * R -> R * R -> R * R * R -> R * (R * R) * (R * R * R).

Variable config : Config.
Variable feature_size : nat.

Local Open Scope scalar_scope.

(** [tile_area = ti.static(tile_size * tile_size)]: computed by Python. *)
Definition tile_area : Z := tile_size config * tile_size config.

(** The tasks of one block, in the order of
    [ti.ndrange(..., tile_size, tile_size)]: pairs [(v, u)]. *)
Definition block_threads : list (Z * Z) :=
  flat_map (fun v => map (fun u => (v, u)) (range (tile_size config)))
           (range (tile_size config)).

(** [thread_id = u + v * tile_size] *)
Definition thread_id_of (vu : Z * Z) : Z :=
  I32.add (snd vu) (I32.mul (fst vu) (tile_size config)).

(** [ti.cast(pixel, ti.f32) + 0.5] *)
Definition pixel_centre (pixel : Z * Z) : R * R :=
  (ofZ (fst pixel) +! lit (1 # 2), ofZ (snd pixel) +! lit (1 # 2)).

(** [a[i] += x] on the two gradient buffers. *)
Definition add_at_feature (a : list (vec R)) (i : Z) (x : vec R) : result (list (vec R)) :=
  old <- aget a i ;; new <- vadd old x ;; aset a i new.

Definition add_at_point (a : list (Gaussian2D R)) (i : Z) (x : Gaussian2D R)
  : result (list (Gaussian2D R)) :=
  old <- aget a i ;; aset a i (G2D_add old x).

(** Lines 96-101: what the task [thread_id] does in the load phase of a page. *)
Definition load_entry (inp : Inputs R) (block_end_idx block_start_idx thread_id : Z)
  (sh : Shared R) : result (Shared R) :=
  let load_index := I32.sub (I32.sub block_end_idx thread_id) 1 in
  if load_index >=? block_start_idx then
    point_idx <- aget (overlap_to_point inp) load_index ;;
    p <- aget (points inp) point_idx ;;
    tp <- aset (tile_point sh) thread_id (Some p) ;;
    f <- aget (point_features inp) point_idx ;;
    tf <- aset (tile_feature sh) thread_id (Some f) ;;
    Ok {| tile_point := tp; tile_feature := tf |}
  else Ok sh.

(** Lines 91-103: the load phase of a page, up to the barrier
    [ti.simt.block.sync()]: every task of the block has done its load. *)
Definition load_page (inp : Inputs R) (end_offset group_offset_base : Z)
  (sh : Shared R) : result (Shared R) :=
  let block_end_idx := I32.sub end_offset group_offset_base in
  let block_start_idx := Z.max (I32.sub block_end_idx tile_area) 0 in
  foldM (fun vu => load_entry inp block_end_idx block_start_idx (thread_id_of vu))
        block_threads sh.

(** Lines 109-111. *)
Definition point_index_of (end_offset group_offset_base in_group_idx : Z) : Z :=
  let point_group_offset := I32.add group_offset_base in_group_idx in
  I32.sub (I32.sub end_offset point_group_offset) 1.

(** Lines 128-137: the clamp, the running transmittance, the alpha gradient
    and the suffix sum.  Returns the clamped alpha, the new [T_i], the new
    [w_i] and [alpha_grad]. *)
Definition blend_update (feature grad_pixel_feature : vec R) (alpha : R)
  (T : R) (w : vec R) : result (R * R * vec R * R) :=
  let alpha := smin alpha (lit (clamp_max_alpha config)) in
  let T := T /! (lit 1 -! alpha) in
  d <- vsub (vmuls feature T) (vdivs w (lit 1 -! alpha)) ;;
  alpha_grad_from_feature <- vmul d grad_pixel_feature ;;
  w <- vadd w (vmuls (vmuls feature alpha) T) ;;
  let alpha_grad := vsum alpha_grad_from_feature in
  Ok (alpha, T, w, alpha_grad).

(** Lines 139-150: the two additions to the gradient buffers. *)
Definition accumulate (inp : Inputs R) (point_index : Z)
  (point_grad_feature : vec R) (point_grad : Gaussian2D R) (g : Grads R)
  : result (Grads R) :=
  point_offset <- aget (overlap_to_point inp) point_index ;;
  gpf <- add_at_feature (grad_point_features g) point_offset point_grad_feature ;;
  gp <- add_at_point (grad_points g) point_offset point_grad ;;
  Ok {| grad_points := gp; grad_point_features := gpf |}.

(** Lines 118-150: the body of the inner loop once the entry's data is at hand. *)
Definition blend_entry (inp : Inputs R) (pixel : Z * Z) (grad_pixel_feature : vec R)
  (point_index : Z) (pt : Gaussian2D R) (feature : vec R) (st : Walk R)
  : result (Walk R) :=
  let '(uv, uv_conic, point_alpha) := G2D_unpack pt in
  let '(gaussian_alpha, dp_dmean, dp_dconic) :=
    conic_pdf_with_grad (pixel_centre pixel) uv uv_conic in
  let alpha := point_alpha *! gaussian_alpha in
  if alpha <?! lit (alpha_threshold config) then Ok st
  else
    r <- blend_update feature grad_pixel_feature alpha (T_i st) (w_i st) ;;
    let '(alpha, T, w, alpha_grad) := r in
    let point_grad_feature := smulv (alpha *! T) grad_pixel_feature in
    g <- accumulate inp point_index point_grad_feature
           (G2D_scale alpha_grad
              (G2D_pack (scale2 point_alpha dp_dmean)
                        (scale3 point_alpha dp_dconic)
                        gaussian_alpha))
           (walk_grads st) ;;
    Ok {| T_i := T; w_i := w; walk_grads := g |}.

(** Lines 108-150: one iteration of the inner loop. *)
Definition process_entry (inp : Inputs R) (pixel : Z * Z) (last_point_idx : Z)
  (grad_pixel_feature : vec R) (end_offset group_offset_base : Z) (sh : Shared R)
  (in_group_idx : Z) (st : Walk R) : result (Walk R) :=
  let point_index := point_index_of end_offset group_offset_base in_group_idx in
  if point_index >=? last_point_idx then Ok st
  else
    pt <- sget (tile_point sh) in_group_idx ;;
    feature <- sget (tile_feature sh) in_group_idx ;;
    blend_entry inp pixel grad_pixel_feature point_index pt feature st.

(** [point_group_size] (lines 105-106). *)
Definition point_group_size (start_offset end_offset group_offset_base : Z) : Z :=
  let tile_point_count := I32.sub end_offset start_offset in
  Z.min tile_area (I32.sub tile_point_count group_offset_base).

(** Lines 90-150: one iteration of the outer loop, as one task sees it. *)
Definition point_group (inp : Inputs R) (pixel : Z * Z) (last_point_idx : Z)
  (grad_pixel_feature : vec R) (start_offset end_offset : Z) (point_group_id : Z)
  (st : Shared R * Walk R) : result (Shared R * Walk R) :=
  let group_offset_base := I32.mul point_group_id tile_area in
  sh <- load_page inp end_offset group_offset_base (fst st) ;;
  w <- foldM (process_entry inp pixel last_point_idx grad_pixel_feature
                end_offset group_offset_base sh)
             (range (point_group_size start_offset end_offset group_offset_base))
             (snd st) ;;
  Ok (sh, w).

(** [num_point_groups] (line 87). *)
Definition num_point_groups (start_offset end_offset : Z) : Z :=
  let tile_point_count := I32.sub end_offset start_offset in
  I32.floordiv (I32.add tile_point_count (tile_area - 1)) tile_area.

(** The shared arrays when the block starts. *)
Definition shared_init : Shared R :=
  {| tile_point := repeat None (Z.to_nat tile_area);
     tile_feature := repeat None (Z.to_nat tile_area) |}.

(** Lines 84-150: the whole walk of one pixel over its tile's range. *)
Definition pixel_walk (inp : Inputs R) (pixel : Z * Z) (last_point_idx : Z)
  (grad_pixel_feature : vec R) (start_offset end_offset : Z) (st : Walk R)
  : result (Shared R * Walk R) :=
  foldM (point_group inp pixel last_point_idx grad_pixel_feature
           start_offset end_offset)
        (range (num_point_groups start_offset end_offset))
        (shared_init, st).

(** [pixel = ivec2(tile_u, tile_v) * tile_size + ivec2(u, v)] (line 57): the
    pair [(pixel.x, pixel.y)]. *)
Definition pixel_of (tile_v tile_u v u : Z) : Z * Z :=
  (I32.add (I32.mul tile_u (tile_size config)) u,
   I32.add (I32.mul tile_v (tile_size config)) v).

(** [tile_id = tile_u + tile_v * tiles_wide] (line 58) *)
Definition tile_id_of (tiles_wide tile_v tile_u : Z) : Z :=
  I32.add tile_u (I32.mul tile_v tiles_wide).

(** Lines 57-159: the body of the parallel loop, for the task [(v, u)] of the
    tile [(tile_v, tile_u)]. *)
Definition thread (inp : Inputs R) (tiles_wide : Z) (tile_v tile_u v u : Z)
  (mem : Memory R) : result (Memory R) :=
  let pixel := pixel_of tile_v tile_u v u in
  let tile_id := tile_id_of tiles_wide tile_v tile_u in
  let accum_feature := vfill feature_size (lit 0) in
  r <- aget (tile_overlap_ranges inp) tile_id ;;
  let '(start_offset, end_offset) := r in
  last_point_idx <- aget2 (image_last_valid mem) (snd pixel) (fst pixel) ;;
  accumulated_alpha <- aget2 (image_alpha mem) (snd pixel) (fst pixel) ;;
  let T := lit 1 -! accumulated_alpha in
  let w := vfill 3 (lit 0) in
  grad_pixel_feature <- aget2 (grad_image_feature inp) (snd pixel) (fst pixel) ;;
  st <- pixel_walk inp pixel last_point_idx grad_pixel_feature
          start_offset end_offset
          {| T_i := T; w_i := w; walk_grads := grads mem |} ;;
  imf <- aset2 (image_feature mem) (snd pixel) (fst pixel) accum_feature ;;
  ima <- aset2 (image_alpha mem) (snd pixel) (fst pixel) (lit 1 -! T_i (snd st)) ;;
  ilv <- aset2 (image_last_valid mem) (snd pixel) (fst pixel) last_point_idx ;;
  Ok {| image_feature := imf; image_alpha := ima; image_last_valid := ilv;
        grads := walk_grads (snd st) |}.

(** [ti.ndrange(a, b, c, d)], last index fastest. *)
Definition ndrange4 (a b c d : Z) : list (Z * Z * Z * Z) :=
  flat_map (fun i =>
    flat_map (fun j =>
      flat_map (fun k => map (fun l => (i, j, k, l)) (range d)) (range c))
      (range b))
    (range a).

(** The kernel, its tasks run one after the other in the order of the loop. *)
Definition _backward_kernel (inp : Inputs R) (mem : Memory R) : result (Memory R) :=
  let '(camera_height, camera_width) := shape2 (image_feature mem) in
  let tiles_wide := I32.floordiv camera_width (tile_size config) in
  let tiles_high := I32.floordiv camera_height (tile_size config) in
  foldM (fun t => let '(tile_v, tile_u, v, u) := t in
                  thread inp tiles_wide tile_v tile_u v u)
        (ndrange4 tiles_high tiles_wide (tile_size config) (tile_size config))
        mem.

(** The walk in the words of the specification: one straight pass over the
    list indices [end - 1, end - 2, ..., start], each entry read from the
    arrays [overlap_to_point], [points] and [point_features] when it is
    reached. *)
Definition direct_entry (inp : Inputs R) (pixel : Z * Z) (last_point_idx : Z)
  (grad_pixel_feature : vec R) (point_index : Z) (st : Walk R) : result (Walk R) :=
  if point_index >=? last_point_idx then Ok st
  else
    point_idx <- aget (overlap_to_point inp) point_index ;;
    pt <- aget (points inp) point_idx ;;
    feature <- aget (point_features inp) point_idx ;;
    blend_entry inp pixel grad_pixel_feature point_index pt feature st.

(** [end - 1, end - 2, ..., start] *)
Definition descending (start_offset end_offset : Z) : list Z :=
  map (fun k => end_offset - 1 - k) (range (end_offset - start_offset)).

Definition straight_walk (inp : Inputs R) (pixel : Z * Z) (last_point_idx : Z)
  (grad_pixel_feature : vec R) (start_offset end_offset : Z) (st : Walk R)
  : result (Walk R) :=
  foldM (direct_entry inp pixel last_point_idx grad_pixel_feature)
        (descending start_offset end_offset) st.

(** The list indices the paged loops reach, in the order they are reached. *)
Definition visited_indices (start_offset end_offset : Z) : list Z :=
  flat_map (fun point_group_id =>
    let group_offset_base := I32.mul point_group_id tile_area in
    map (point_index_of end_offset group_offset_base)
        (range (point_group_size start_offset end_offset group_offset_base)))
    (range (num_point_groups start_offset end_offset)).

(** The three saved arrays hold at [pixel] in [mem'] what they hold in [mem]. *)
Definition saved_same_at (mem mem' : Memory R) (pixel : Z * Z) : Prop :=
  aget2 (image_feature mem') (snd pixel) (fst pixel)
    = aget2 (image_feature mem) (snd pixel) (fst pixel) /\
  aget2 (image_alpha mem') (snd pixel) (fst pixel)
    = aget2 (image_alpha mem) (snd pixel) (fst pixel) /\
  aget2 (image_last_valid mem') (snd pixel) (fst pixel)
    = aget2 (image_last_valid mem) (snd pixel) (fst pixel).

(** What the task of [pixel], in the tile [tile_id], leaves in the saved
    arrays: from [mem] it read the pixel's [last_valid] and accumulated alpha,
    it walked the tile's range from T_i = 1 - alpha and w = 0 (adding to
    whatever the gradient buffers held then), and [mem'] holds at the pixel the
    zero feature, one minus the T_i left by the walk, and [last_valid]. *)
Definition pixel_overwritten (inp : Inputs R) (mem mem' : Memory R)
  (tile_id : Z) (pixel : Z * Z) : Prop :=
  aget2 (image_feature mem') (snd pixel) (fst pixel)
    = Ok (vfill feature_size (lit 0)) /\
  exists start_offset end_offset last_point_idx accumulated_alpha
         grad_pixel_feature grads_before sh st,
    aget (tile_overlap_ranges inp) tile_id = Ok (start_offset, end_offset) /\
    aget2 (image_last_valid mem) (snd pixel) (fst pixel) = Ok last_point_idx /\
    aget2 (image_alpha mem) (snd pixel) (fst pixel) = Ok accumulated_alpha /\
    aget2 (grad_image_feature inp) (snd pixel) (fst pixel)
      = Ok grad_pixel_feature /\
    pixel_walk inp pixel last_point_idx grad_pixel_feature
      start_offset end_offset
      {| T_i := lit 1 -! accumulated_alpha; w_i := vfill 3 (lit 0);
         walk_grads := grads_before |} = Ok (sh, st) /\
    aget2 (image_alpha mem') (snd pixel) (fst pixel) = Ok (lit 1 -! T_i st) /\
    aget2 (image_last_valid mem') (snd pixel) (fst pixel) = Ok last_point_idx.

(** The shared arrays have [tile_area] slots. *)
Definition shared_sized (sh : Shared R) : Prop :=
  Z.of_nat (length (tile_point sh)) = tile_area /\
  Z.of_nat (length (tile_feature sh)) = tile_area.

(** Slot [i] of the shared arrays holds the data of the list entry [k]. *)
Definition slot_holds (inp : Inputs R) (sh : Shared R) (i k : Z) : Prop :=
  exists point_idx p f,
    aget (overlap_to_point inp) k = Ok point_idx /\
    aget (points inp) point_idx = Ok p /\
    aget (point_features inp) point_idx = Ok f /\
    sget (tile_point sh) i = Ok p /\
    sget (tile_feature sh) i = Ok f.

(** Every list entry below [end_offset] names a primitive that exists. *)
Definition entries_valid (inp : Inputs R) (end_offset : Z) : Prop :=
  forall k, 0 <= k < end_offset ->
    exists point_idx p f,
      aget (overlap_to_point inp) k = Ok point_idx /\
      aget (points inp) point_idx = Ok p /\
      aget (point_features inp) point_idx = Ok f.

End Backward.

(* ------------------------------------------------------------------------- *)
(** ** Python floats: the quotient of two integers *)

Module Binary64.

(** A finite binary64 number [mant * 2^expo]. *)
Record float : Type := { mant : Z; expo : Z }.

(** Numerator and denominator of [(n / d) * 2^s]. *)
Definition scaled (n d s : Z) : Z * Z :=
  if 0 <=? s then (n * 2 ^ s, d) else (n, d * 2 ^ (- s)).

(** [floor (log2 (n / d))] for positive [n] and [d]. *)
Definition ilog2 (n d : Z) : Z :=
  let l := Z.log2 n - Z.log2 d in
  let '(a, b) := scaled n d (- l) in
  if a <? b then l - 1 else l.

(** The integer nearest to [a / b], ties to even, for [0 <= a] and [0 < b]. *)
Definition round_half_even (a b : Z) : Z :=
  let q := a / b in
  let r := a mod b in
  if 2 * r <? b then q
  else if b <? 2 * r then q + 1
  else if Z.even q then q else q + 1.

(** The exponent of the last place of the binary64 numbers around [n / d]:
    53 significant bits, and no exponent below -1074. *)
Definition ulp_exponent (n d : Z) : Z := Z.max (ilog2 n d - 52) (-1074).

(** [a / b] on Python integers: the binary64 number nearest to the exact
    quotient, ties to even. *)
Definition true_divide (a b : Z) : result float :=
  if b =? 0 then Err ZeroDivision
  else if a =? 0 then Ok {| mant := 0; expo := 0 |}
  else
    let n := Z.abs a in
    let d := Z.abs b in
    let e := ulp_exponent n d in
    let '(p, q) := scaled n d (- e) in
    let m := round_half_even p q in
    if (971 <? e) || ((e =? 971) && (m =? 2 ^ 53)) then Err FloatOverflow
    else Ok {| mant := Z.sgn a * Z.sgn b * m; expo := e |}.

(** [math.ceil(f)]: an integer. *)
Definition ceil (f : float) : Z :=
  if 0 <=? expo f then mant f * 2 ^ expo f
  else - ((- mant f) / 2 ^ (- expo f)).

End Binary64.

(* ------------------------------------------------------------------------- *)
(** ** [pad_to_tile] and [render_gaussians] (renderer2d.py) *)

(** The inner function [pad] of [pad_to_tile]:
    [int(math.ceil(x / tile_size) * tile_size)]. *)
Definition pad (tile_size x : Z) : result Z :=
  f <- Binary64.true_divide x tile_size ;;
  Ok (Binary64.ceil f * tile_size).

Definition pad_to_tile (image_size : Z * Z) (tile_size : Z) : result (Z * Z) :=
  a <- pad tile_size (fst image_size) ;;
  b <- pad tile_size (snd image_size) ;;
  Ok (a, b).

(** [l[:n]] *)
Definition slice_to {X} (n : Z) (l : list X) : list X :=
  if 0 <=? n then firstn (Z.to_nat n) l
  else firstn (length l - Z.to_nat (- n)) l.

(** [image[:h, :w]] *)
Definition crop {X} (h w : Z) (image : list (list X)) : list (list X) :=
  map (slice_to w) (slice_to h image).

Section Render.
(** The collaborators of [render_gaussians] that are not among the sources
    ([map_to_tiles], [rasterize]) or that are tensor code ([contiguous],
    [project_gaussians2d], the fields of [Gaussians2D]) are parameters. *)
Variables Gaussians2D Projected Depth Feature Overlap Ranges Pixel : Type.
Variable contiguous : Gaussians2D -> Gaussians2D.
Variable project_gaussians2d : Gaussians2D -> Projected.
Variable depth : Gaussians2D -> Depth.
Variable feature : Gaussians2D -> Feature.
Variable map_to_tiles : Projected -> Depth -> Z * Z -> Z -> Overlap * Ranges.
Variable rasterize :
  Projected -> Feature -> Ranges -> Overlap -> Z * Z -> Config -> list (list Pixel).

Definition render_gaussians (gaussians : Gaussians2D) (image_size : Z * Z)
  (tile_size : Z) : result (list (list Pixel)) :=
  let gaussians := contiguous gaussians in
  let gaussians2d := project_gaussians2d gaussians in
  padded <- pad_to_tile image_size tile_size ;;
  let '(overlap_to_point, ranges) :=
    map_to_tiles gaussians2d (depth gaussians) padded tile_size in
  let raster_config := Config_init (Some tile_size) None None None in
  let image := rasterize gaussians2d (feature gaussians) ranges overlap_to_point
                 padded raster_config in
  let '(w, h) := image_size in
  Ok (crop h w image).

End Render.

(* ------------------------------------------------------------------------- *)
(** ** A small scene over the rationals

    One 2 x 2 tile, three primitives, a range of six entries (two pages of
    four slots).  The density is a rational stand-in for the Gaussian. *)

Module Sample.
Local Open Scope Q_scope.

Definition pdf (x m : Q * Q) (c : Q * Q * Q) : Q * (Q * Q) * (Q * Q * Q) :=
  let dx := fst x - fst m in
  let dy := snd x - snd m in
  let '(a, b, d) := c in
  let p := 1 / (1 + (a * dx * dx + 2 * b * dx * dy + d * dy * dy)) in
  (p, (p * dx, p * dy), (p * dx * dx, p * dx * dy, p * dy * dy)).

Definition config : Config := Config_init (Some 2%Z) None None None.

Definition p0 : Gaussian2D Q := G2D_pack (1 # 2, 1 # 2) (1, 0, 1) (1 # 2).
Definition p1 : Gaussian2D Q := G2D_pack (1, 1) (1, 0, 1) (1 # 1000).
Definition p2 : Gaussian2D Q := G2D_pack (3 # 2, 1 # 2) (2, 0, 2) 1.

Definition inputs : Inputs Q := {|
  points := [p0; p1; p2];
  point_features := [[1; 0; 0]; [0; 1; 0]; [0; 0; 1]];
  tile_overlap_ranges := [(0, 6)%Z];
  overlap_to_point := [0; 1; 2; 0; 1; 2]%Z;
  grad_image_feature := [[[1; 1; 1]; [1; 2; 3]]; [[0; 1; 0]; [1; 1; 1]]]
|}.

Definition zero_point : Gaussian2D Q := G2D_pack (0, 0) (0, 0, 0) 0.

Definition grads0 : Grads Q := {|
  grad_points := [zero_point; zero_point; zero_point];
  grad_point_features := [[0; 0; 0]; [0; 0; 0]; [0; 0; 0]]
|}.

Definition memory : Memory Q := {|
  image_feature := [[[1; 0; 0]; [1; 0; 0]]; [[1; 0; 0]; [1; 0; 0]]];
  image_alpha := [[3 # 4; 1 # 2]; [1 # 2; 1 # 2]];
  image_last_valid := [[6; 5]; [3; 0]]%Z;
  grads := grads0
|}.

(** The shared arrays after the first page (entries 5, 4, 3, 2) is loaded. *)
Definition shared0 : Shared Q := {|
  tile_point := [Some p2; Some p1; Some p0; Some p2];
  tile_feature := [Some [0; 0; 1]; Some [0; 1; 0]; Some [1; 0; 0]; Some [0; 0; 1]]
|}.


(** The registers of the pixel (0, 0) when its walk starts. *)
Definition walk0 : Walk Q :=
  {| T_i := 1 - (3 # 4); w_i := [0; 0; 0]; walk_grads := grads0 |}.

End Sample.

(* ------------------------------------------------------------------------- *)
(** ** What a run leaves of the gradient buffers *)

(** The gradient buffers [g'] have the sizes of [g], and hold what [g] holds
    at every primitive that the list [listed] does not name. *)
Definition grads_frame {R} (listed : list Z) (g g' : Grads R) : Prop :=
  length (grad_points g') = length (grad_points g) /\
  length (grad_point_features g') = length (grad_point_features g) /\
  forall j, ~ In j listed ->
    aget (grad_points g') j = aget (grad_points g) j /\
    aget (grad_point_features g') j = aget (grad_point_features g) j.

(* ------------------------------------------------------------------------- *)
(** ** [frustum_culling_kernel] and [frustum_culling] (culling.py) *)

(** The fields of [taichi_splatting.data_types.CameraParams] that
    [frustum_culling] reads; the class itself is not among the sources.  The
    image size is a pair of 32-bit integers. *)
Record CameraParams (R Mat4 : Type) : Type := {
  cam_T_image_world : list Mat4;   (* (1, 4, 4) *)
  cam_near_plane : R;
  cam_far_plane : R;
  cam_image_size : Z * Z
}.
Arguments cam_T_image_world {R Mat4}.
Arguments cam_near_plane {R Mat4}.
Arguments cam_far_plane {R Mat4}.
Arguments cam_image_size {R Mat4}.

Section Culling.
Context {R : Type} {SR : Scalar R}.

(** [a <= b] on [f32], which [Scalar] does not have; [a >= b] is [sleb b a]. *)
Variable sleb : R -> R -> bool.

(** [taichi_splatting.ti.projection.point_to_image] is not among the sources:
    it maps a point and the camera matrix to a pixel position and a depth. *)
Variables Vec3 Mat4 : Type.
Variable point_to_image : Vec3 -> Mat4 -> (R * R) * R.

Local Open Scope scalar_scope.

(** The right-hand side of lines 30-33.  [-margin_pixels] and
    [image_size + margin_pixels] are 32-bit integers, cast to [f32] for the
    comparison. *)
Definition in_view (near_plane far_plane : R) (image_size : Z * Z)
  (margin_pixels : Z) (pixel : R * R) (depth : R) : bool :=
  (near_plane <?! depth) && (depth <?! far_plane)
  && sleb (ofZ (I32.sub 0 margin_pixels)) (fst pixel)
  && (fst pixel <?! ofZ (I32.add (fst image_size) margin_pixels))
  && sleb (ofZ (I32.sub 0 margin_pixels)) (snd pixel)
  && (snd pixel <?! ofZ (I32.add (snd image_size) margin_pixels)).

(** Lines 25-33: the body of the loop for one [point_id]. *)
Definition cull_point (pointcloud : list Vec3) (T_image_world : list Mat4)
  (near_plane far_plane : R) (image_size : Z * Z) (margin_pixels : Z)
  (point_id : Z) (output_mask : list bool) : result (list bool) :=
  position <- aget pointcloud point_id ;;
  T <- aget T_image_world 0 ;;
  let '(pixel, depth) := point_to_image position T in
  aset output_mask point_id
       (in_view near_plane far_plane image_size margin_pixels pixel depth).

Definition frustum_culling_kernel (pointcloud : list Vec3)
  (T_image_world : list Mat4) (output_mask : list bool)
  (near_plane far_plane : R) (image_size : Z * Z) (margin_pixels : Z)
  : result (list bool) :=
  foldM (cull_point pointcloud T_image_world near_plane far_plane image_size
           margin_pixels)
        (range (Z.of_nat (length pointcloud))) output_mask.

Definition frustum_culling (pointcloud : list Vec3)
  (camera_params : CameraParams R Mat4) (margin_pixels : Z) : result (list bool) :=
  let mask := repeat false (length pointcloud) in
  frustum_culling_kernel pointcloud (cam_T_image_world camera_params) mask
    (cam_near_plane camera_params) (cam_far_plane camera_params)
    (cam_image_size camera_params) margin_pixels.

(** The mask entry of one point, given the camera matrix. *)
Definition visible (T : Mat4) (near_plane far_plane : R) (image_size : Z * Z)
  (margin_pixels : Z) (position : Vec3) : bool :=
  in_view near_plane far_plane image_size margin_pixels
    (fst (point_to_image position T)) (snd (point_to_image position T)).

End Culling.

(* ------------------------------------------------------------------------- *)
(** ** [modify_state] and [replace_dict] (parameter_class.py, lines 18-25) *)

Module Py.
Import String.StringSyntax.
Delimit Scope string_scope with string.

Definition key : Type := String.string.

(** Python exceptions. *)
Inductive exn : Type :=
| KeyError
| TypeError
| Raised (what : key).   (* an exception raised by a function passed in *)

Inductive outcome (A : Type) : Type :=
| Return (a : A)
| Raise (e : exn).
Arguments Return {A} a.
Arguments Raise {A} e.

Definition and_then {A B} (c : outcome A) (k : A -> outcome B) : outcome B :=
  match c with
  | Return a => k a
  | Raise e => Raise e
  end.

(** A list or dict comprehension: the elements in order, stopping at the first
    exception. *)
Fixpoint comprehension {A B} (f : A -> outcome B) (xs : list A) : outcome (list B) :=
  match xs with
  | [] => Return []
  | x :: xs' =>
      and_then (f x) (fun y =>
      and_then (comprehension f xs') (fun ys => Return (y :: ys)))
  end.

(** A [dict] with string keys: its items in insertion order. *)
Definition dict (V : Type) : Type := list (key * V).

Definition keys {V} (d : dict V) : list key := map fst d.

(** [d[k]] *)
Fixpoint getitem {V} (d : dict V) (k : key) : outcome V :=
  match d with
  | [] => Raise KeyError
  | (k', v) :: d' => if String.eqb k k' then Return v else getitem d' k
  end.

(** [d[k] = v] *)
Fixpoint setitem {V} (d : dict V) (k : key) (v : V) : dict V :=
  match d with
  | [] => [(k, v)]
  | (k', v') :: d' =>
      if String.eqb k k' then (k', v) :: d' else (k', v') :: setitem d' k v
  end.

(** [d.update(kwargs)] *)
Definition update {V} (d kwargs : dict V) : dict V :=
  fold_left (fun acc kv => setitem acc (fst kv) (snd kv)) kwargs d.

(** [k in state_keys], for a tuple of strings. *)
Definition contains (ks : list key) (k : key) : bool :=
  existsb (String.eqb k) ks.

(** Lines 18-20. *)
Definition modify_state {V} (state : dict V) (f : V -> outcome V)
  (state_keys : list key) : outcome (dict V) :=
  comprehension
    (fun kv =>
       if contains state_keys (fst kv)
       then and_then (f (snd kv)) (fun v => Return (fst kv, v))
       else and_then (getitem state (fst kv)) (fun v => Return (fst kv, v)))
    state.

(** The default of [state_keys]. *)
Definition default_state_keys : list key := ["exp_avg"; "exp_avg_sq"]%string.

(** What a name of the module is bound to: [import copy] (line 1) binds [copy]
    to the module of that name, and a module cannot be called. *)
Inductive binding (V : Type) : Type :=
| Module_
| Function_ (f : dict V -> outcome (dict V)).
Arguments Module_ {V}.
Arguments Function_ {V} f.

Definition call {V} (b : binding V) (d : dict V) : outcome (dict V) :=
  match b with
  | Module_ => Raise TypeError
  | Function_ f => f d
  end.

(** Line 1: [import copy]. *)
Definition copy {V} : binding V := Module_.

(** Lines 22-25. *)
Definition replace_dict {V} (d kwargs : dict V) : outcome (dict V) :=
  and_then (call copy d) (fun d => Return (update d kwargs)).

(** Lines 80-81: the comprehension that builds [updated_groups].  For each
    group the argument [[tensors[group["name"]]]] is evaluated first
    ([params_of], which may raise), then [replace_dict] is called. *)
Definition updated_groups {V} (params_of : dict V -> outcome V)
  (param_groups : list (dict V)) : outcome (list (dict V)) :=
  comprehension
    (fun group =>
       and_then (params_of group) (fun p =>
       replace_dict group [("params"%string, p)]))
    param_groups.

End Py.

(* ------------------------------------------------------------------------- *)
(** ** Further small scenes

    Variations of the scene above, a point cloud with a pinhole camera and an
    optimizer state. *)

Module Scene.
Import String.StringSyntax.
Delimit Scope string_scope with string.
Local Open Scope Q_scope.

(** A fourth primitive, which the tile's list does not name. *)
Definition p3 : Gaussian2D Q := G2D_pack (5, 5) (1, 0, 1) (1 # 2).

Definition inputs : Inputs Q := {|
  points := [Sample.p0; Sample.p1; Sample.p2; p3];
  point_features := [[1; 0; 0]; [0; 1; 0]; [0; 0; 1]; [1; 1; 1]];
  tile_overlap_ranges := [(0, 6)%Z];
  overlap_to_point := [0; 1; 2; 0; 1; 2]%Z;
  grad_image_feature := [[[1; 1; 1]; [1; 2; 3]]; [[0; 1; 0]; [1; 1; 1]]]
|}.

(** Gradient buffers that already hold something for the fourth primitive. *)
Definition held_point : Gaussian2D Q := G2D_pack (1, 2) (3, 4, 5) 6.

Definition memory : Memory Q := {|
  image_feature := [[[1; 0; 0]; [1; 0; 0]]; [[1; 0; 0]; [1; 0; 0]]];
  image_alpha := [[3 # 4; 1 # 2]; [1 # 2; 1 # 2]];
  image_last_valid := [[6; 5]; [3; 0]]%Z;
  grads := {|
    grad_points :=
      [Sample.zero_point; Sample.zero_point; Sample.zero_point; held_point];
    grad_point_features := [[0; 0; 0]; [0; 0; 0]; [0; 0; 0]; [7; 8; 9]]
  |}
|}.

(** The scene of [Sample] with an empty range for its tile. *)
Definition empty_inputs : Inputs Q := {|
  points := [Sample.p0; Sample.p1; Sample.p2];
  point_features := [[1; 0; 0]; [0; 1; 0]; [0; 0; 1]];
  tile_overlap_ranges := [(3, 3)%Z];
  overlap_to_point := [0; 1; 2; 0; 1; 2]%Z;
  grad_image_feature := [[[1; 1; 1]; [1; 2; 3]]; [[0; 1; 0]; [1; 1; 1]]]
|}.

(** A 2 x 3 image: one whole tile and a column of pixels beside it. *)
Definition wide_memory : Memory Q := {|
  image_feature :=
    [[[1; 0; 0]; [1; 0; 0]; [0; 1; 0]]; [[1; 0; 0]; [1; 0; 0]; [0; 1; 0]]];
  image_alpha := [[3 # 4; 1 # 2; 1 # 4]; [1 # 2; 1 # 2; 1 # 4]];
  image_last_valid := [[6; 5; 6]; [3; 0; 6]]%Z;
  grads := Sample.grads0
|}.

(** A pinhole camera with its focal length for a matrix. *)
Definition pinhole (position : Q * Q * Q) (focal : Q) : (Q * Q) * Q :=
  let '(x, y, z) := position in ((focal * x / z, focal * y / z), z).

Definition pointcloud : list (Q * Q * Q) :=
  [(0, 0, 5); (100, 0, 5); (1, 1, 20); (1, 1, 1 # 2)].

Definition camera : CameraParams Q Q := {|
  cam_T_image_world := [2];
  cam_near_plane := 1;
  cam_far_plane := 10;
  cam_image_size := (8, 8)%Z
|}.

(** An optimizer state with integers for tensors. *)
Definition step : Py.key := "step"%string.
Definition exp_avg : Py.key := "exp_avg"%string.
Definition exp_avg_sq : Py.key := "exp_avg_sq"%string.

Definition state : Py.dict Z :=
  [(step, 3); (exp_avg, 5); (exp_avg_sq, 7)]%Z.

(** A function that raises on the value 5. *)
Definition five : Py.exn := Py.Raised "five"%string.

Definition picky (v : Z) : Py.outcome Z :=
  if (v =? 5)%Z then Py.Raise five else Py.Return v.

End Scene.

(* ========================================================================= *)
(** * Properties *)

(* ------------------------------------------------------------------------- *)
(** ** Arrays, vectors and loops *)

Lemma aget_Ok_iff {X} (a : list X) (i : Z) (x : X) :
  aget a i = Ok x <-> 0 <= i /\ nth_error a (Z.to_nat i) = Some x.
Proof.
  unfold aget. destruct (Z.ltb_spec i 0).
  - split; [discriminate | lia].
  - destruct (nth_error a (Z.to_nat i)) eqn:E; split; intros H'.
    + inversion H'; subst; auto.
    + destruct H' as [_ H']. now inversion H'.
    + discriminate.
    + destruct H' as [_ H']. discriminate.
Qed.

Lemma aget_bounds {X} (a : list X) (i : Z) (x : X) :
  aget a i = Ok x -> 0 <= i < Z.of_nat (length a).
Proof.
  intros H. apply aget_Ok_iff in H. destruct H as [H0 H].
  assert (Z.to_nat i < length a)%nat by (apply nth_error_Some; congruence).
  lia.
Qed.

Lemma aget_in_range {X} (a : list X) (i : Z) :
  0 <= i < Z.of_nat (length a) -> exists x, aget a i = Ok x.
Proof.
  intros H. destruct (nth_error a (Z.to_nat i)) eqn:E.
  - exists x. apply aget_Ok_iff. split; [lia | exact E].
  - apply nth_error_None in E. lia.
Qed.

Lemma update_length {X} (a : list X) (n : nat) (x : X) :
  length (update a n x) = length a.
Proof.
  revert n. induction a as [|y a IH]; intros [|n]; simpl; auto.
Qed.

Lemma nth_error_update_same {X} (a : list X) (n : nat) (x : X) :
  (n < length a)%nat -> nth_error (update a n x) n = Some x.
Proof.
  revert n. induction a as [|y a IH]; intros [|n] H; simpl in *; try lia; auto.
  apply IH. lia.
Qed.

Lemma nth_error_update_other {X} (a : list X) (n m : nat) (x : X) :
  n <> m -> nth_error (update a n x) m = nth_error a m.
Proof.
  revert n m. induction a as [|y a IH]; intros [|n] [|m] H; simpl; auto.
  congruence.
Qed.

Lemma aset_Ok {X} (a : list X) (i : Z) (x : X) :
  0 <= i < Z.of_nat (length a) -> aset a i x = Ok (update a (Z.to_nat i) x).
Proof.
  intros H. unfold aset.
  destruct (Z.ltb_spec i 0); [lia|].
  destruct (Nat.ltb_spec (Z.to_nat i) (length a)); [reflexivity | lia].
Qed.

Lemma aset_inv {X} (a a' : list X) (i : Z) (x : X) :
  aset a i x = Ok a' ->
  0 <= i < Z.of_nat (length a) /\ a' = update a (Z.to_nat i) x.
Proof.
  unfold aset. destruct (Z.ltb_spec i 0); [discriminate|].
  destruct (Nat.ltb_spec (Z.to_nat i) (length a)); [|discriminate].
  intros H'. inversion H'. split; [lia | reflexivity].
Qed.

Lemma aget_update_same {X} (a : list X) (i : Z) (x : X) :
  0 <= i < Z.of_nat (length a) -> aget (update a (Z.to_nat i) x) i = Ok x.
Proof.
  intros H. apply aget_Ok_iff. split; [lia|].
  apply nth_error_update_same. lia.
Qed.

Lemma aget_update_other {X} (a : list X) (i j : Z) (x : X) :
  0 <= i -> i <> j -> aget (update a (Z.to_nat i) x) j = aget a j.
Proof.
  intros H Hij. unfold aget. destruct (Z.ltb_spec j 0); [reflexivity|].
  rewrite nth_error_update_other by lia. reflexivity.
Qed.

Lemma bind_Ok_inv {A B} (c : result A) (k : A -> result B) (b : B) :
  bind c k = Ok b -> exists a, c = Ok a /\ k a = Ok b.
Proof. destruct c; simpl; [eauto | discriminate]. Qed.

Lemma foldM_ext {A S} (f g : A -> S -> result S) (xs : list A) (st : S) :
  (forall x s, In x xs -> f x s = g x s) -> foldM f xs st = foldM g xs st.
Proof.
  revert st. induction xs as [|x xs IH]; intros st H; simpl; [reflexivity|].
  rewrite H by (left; reflexivity).
  destruct (g x st); simpl; [|reflexivity].
  apply IH. intros y s Hy. apply H. now right.
Qed.

Lemma foldM_app {A S} (f : A -> S -> result S) (xs ys : list A) (st : S) :
  foldM f (xs ++ ys) st = (st' <- foldM f xs st ;; foldM f ys st').
Proof.
  revert st. induction xs as [|x xs IH]; intros st; simpl; [reflexivity|].
  destruct (f x st); simpl; auto.
Qed.

Lemma foldM_map {A B S} (h : A -> B) (f : B -> S -> result S) (xs : list A) (st : S) :
  foldM f (map h xs) st = foldM (fun x => f (h x)) xs st.
Proof.
  revert st. induction xs as [|x xs IH]; intros st; simpl; [reflexivity|].
  destruct (f (h x) st); simpl; auto.
Qed.

Section VectorFacts.
Context {R : Type} {SR : Scalar R}.

Lemma vzip_same_length (op : R -> R -> R) (a b : vec R) :
  length a = length b -> vzip op a b = Ok (zipw op a b).
Proof.
  revert b. induction a as [|x a IH]; intros [|y b] H; simpl in *; try discriminate.
  - reflexivity.
  - rewrite IH by congruence. reflexivity.
Qed.

Lemma vzip_other_length (op : R -> R -> R) (a b : vec R) :
  length a <> length b -> vzip op a b = Err ShapeMismatch.
Proof.
  revert b. induction a as [|x a IH]; intros [|y b] H; simpl in *; try congruence.
  rewrite IH by congruence. reflexivity.
Qed.

Lemma zipw_length (op : R -> R -> R) (a b : vec R) :
  length a = length b -> length (zipw op a b) = length a.
Proof.
  intros H. unfold zipw. rewrite length_map, length_combine. lia.
Qed.

Lemma vmuls_length (a : vec R) (s : R) : length (vmuls a s) = length a.
Proof. apply length_map. Qed.

Lemma vdivs_length (a : vec R) (s : R) : length (vdivs a s) = length a.
Proof. apply length_map. Qed.

Lemma smulv_length (s : R) (a : vec R) : length (smulv s a) = length a.
Proof. apply length_map. Qed.

Lemma vfill_length (n : nat) (c : R) : length (vfill n c) = n.
Proof. apply repeat_length. Qed.

End VectorFacts.

(* ------------------------------------------------------------------------- *)
(** ** One iteration of the inner loop *)

Section StepFacts.
Context {R : Type} {SR : Scalar R}.
Variable conic_pdf_with_grad :
  R * R -> R * R -> R * R * R -> R * (R * R) * (R * R * R).
Variable config : Config.
Local Open Scope scalar_scope.

(** [blend_update] on vectors of one size. *)
Lemma blend_update_same_size (feature grad : vec R) (alpha T : R) (w : vec R) :
  length feature = length w ->
  length grad = length feature ->
  let a := smin alpha (lit (clamp_max_alpha config)) in
  let T' := T /! (lit 1 -! a) in
  blend_update config feature grad alpha T w =
  Ok (a, T', zipw sadd w (vmuls (vmuls feature a) T'),
      vsum (zipw smul
              (zipw ssub (vmuls feature T') (vdivs w (lit 1 -! a))) grad)).
Proof.
  intros Hw Hg a T'. unfold blend_update. fold a. fold T'.
  unfold vsub, vmul, vadd.
  rewrite vzip_same_length by (rewrite vmuls_length, vdivs_length; exact Hw).
  cbn [bind].
  rewrite vzip_same_length
    by (rewrite zipw_length; rewrite vmuls_length;
        [congruence | rewrite vdivs_length; exact Hw]).
  cbn [bind].
  rewrite vzip_same_length by (rewrite !vmuls_length; congruence).
  reflexivity.
Qed.

(** [blend_update] on a suffix sum whose size differs from the features'. *)
Lemma blend_update_other_size (feature grad : vec R) (alpha T : R) (w : vec R) :
  length feature <> length w ->
  blend_update config feature grad alpha T w = Err ShapeMismatch.
Proof.
  intros Hw. unfold blend_update, vsub.
  rewrite vzip_other_length by (rewrite vmuls_length, vdivs_length; exact Hw).
  reflexivity.
Qed.

Lemma add_at_feature_Ok (a : list (vec R)) (i : Z) (old x : vec R) :
  aget a i = Ok old -> length old = length x ->
  add_at_feature a i x = Ok (update a (Z.to_nat i) (zipw sadd old x)).
Proof.
  intros Hget Hlen. unfold add_at_feature. rewrite Hget. cbn [bind].
  unfold vadd. rewrite vzip_same_length by exact Hlen. cbn [bind].
  apply aset_Ok. eapply aget_bounds; eauto.
Qed.

Lemma add_at_point_Ok (a : list (Gaussian2D R)) (i : Z) (old x : Gaussian2D R) :
  aget a i = Ok old ->
  add_at_point a i x = Ok (update a (Z.to_nat i) (G2D_add old x)).
Proof.
  intros Hget. unfold add_at_point. rewrite Hget. cbn [bind].
  apply aset_Ok. eapply aget_bounds; eauto.
Qed.

(** The iteration for a primitive that contributes: the entry lies below
    [last_valid], its alpha is not under the threshold, the vectors have one
    size and the primitive's two gradient entries exist. *)
Lemma process_entry_contributing
  (inp : Inputs R) (pixel : Z * Z) (last_point_idx : Z) (grad : vec R)
  (end_offset group_offset_base : Z) (sh : Shared R) (in_group_idx : Z)
  (st : Walk R) (pt : Gaussian2D R) (feature : vec R)
  (gaussian_alpha : R) (dp_dmean : R * R) (dp_dconic : R * R * R)
  (point_offset : Z) (old_feature : vec R) (old_point : Gaussian2D R) :
  let point_index := point_index_of end_offset group_offset_base in_group_idx in
  point_index < last_point_idx ->
  sget (tile_point sh) in_group_idx = Ok pt ->
  sget (tile_feature sh) in_group_idx = Ok feature ->
  conic_pdf_with_grad (pixel_centre pixel) (g_mean pt) (g_conic pt) =
    (gaussian_alpha, dp_dmean, dp_dconic) ->
  (g_alpha pt *! gaussian_alpha <?! lit (alpha_threshold config)) = false ->
  length feature = length (w_i st) ->
  length grad = length feature ->
  aget (overlap_to_point inp) point_index = Ok point_offset ->
  aget (grad_point_features (walk_grads st)) point_offset = Ok old_feature ->
  length old_feature = length grad ->
  aget (grad_points (walk_grads st)) point_offset = Ok old_point ->
  let a := smin (g_alpha pt *! gaussian_alpha) (lit (clamp_max_alpha config)) in
  let T := T_i st /! (lit 1 -! a) in
  let alpha_grad :=
    vsum (zipw smul
            (zipw ssub (vmuls feature T) (vdivs (w_i st) (lit 1 -! a))) grad) in
  process_entry conic_pdf_with_grad config inp pixel last_point_idx grad
    end_offset group_offset_base sh in_group_idx st =
  Ok {| T_i := T;
        w_i := zipw sadd (w_i st) (vmuls (vmuls feature a) T);
        walk_grads :=
          {| grad_points :=
               update (grad_points (walk_grads st)) (Z.to_nat point_offset)
                 (G2D_add old_point
                    (G2D_scale alpha_grad
                       (G2D_pack (scale2 (g_alpha pt) dp_dmean)
                                 (scale3 (g_alpha pt) dp_dconic)
                                 gaussian_alpha)));
             grad_point_features :=
               update (grad_point_features (walk_grads st))
                 (Z.to_nat point_offset)
                 (zipw sadd old_feature (smulv (a *! T) grad)) |} |}.
Proof.
  intros point_index Hlast Hpt Hfeat Hpdf Hthr Hw Hg Hoff Hof Hofl Hop a T alpha_grad.
  unfold process_entry. fold point_index.
  destruct (Z.geb_spec point_index last_point_idx); [lia|].
  rewrite Hpt, Hfeat. cbn [bind].
  unfold blend_entry, G2D_unpack. rewrite Hpdf, Hthr.
  rewrite blend_update_same_size by assumption. cbn [bind].
  fold a. fold T. fold alpha_grad.
  unfold accumulate. rewrite Hoff. cbn [bind].
  rewrite (add_at_feature_Ok _ _ old_feature)
    by (auto; rewrite smulv_length; exact Hofl).
  cbn [bind].
  rewrite (add_at_point_Ok _ _ old_point) by exact Hop.
  reflexivity.
Qed.


(** The iteration for an entry whose alpha is under the threshold. *)
Lemma blend_entry_below_threshold
  (inp : Inputs R) (pixel : Z * Z) (grad : vec R) (point_index : Z)
  (pt : Gaussian2D R) (feature : vec R) (st : Walk R) :
  (g_alpha pt *!
     fst (fst (conic_pdf_with_grad (pixel_centre pixel) (g_mean pt) (g_conic pt)))
   <?! lit (alpha_threshold config)) = true ->
  blend_entry conic_pdf_with_grad config inp pixel grad point_index pt feature st
  = Ok st.
Proof.
  intros H. unfold blend_entry, G2D_unpack.
  destruct (conic_pdf_with_grad (pixel_centre pixel) (g_mean pt) (g_conic pt))
    as [[ga dm] dc].
  cbn [fst] in H. rewrite H. reflexivity.
Qed.

End StepFacts.

(* ------------------------------------------------------------------------- *)
(** ** The reverse step and the gradient accumulation *)

Section StepProperties.
Context {R : Type} {SR : Scalar R}.
Variable conic_pdf_with_grad :
  R * R -> R * R -> R * R * R -> R * (R * R) * (R * R * R).
Variable config : Config.
Local Open Scope scalar_scope.

(** C1.  For a primitive that contributes at a pixel, the iteration first
    un-divides the running transmittance by one minus the clamped alpha, then
    takes the alpha gradient as the sum of the elementwise product of
    (feature * T_i - w / (1 - alpha)) with the incoming pixel gradient, with
    the new T_i and the old w, and only then adds feature * alpha * T_i to the
    suffix sum w. *)
Theorem C1_reverse_step_order
  (inp : Inputs R) (pixel : Z * Z) (last_point_idx : Z) (grad : vec R)
  (end_offset group_offset_base : Z) (sh : Shared R) (in_group_idx : Z)
  (st : Walk R) (pt : Gaussian2D R) (feature : vec R)
  (gaussian_alpha : R) (dp_dmean : R * R) (dp_dconic : R * R * R)
  (point_offset : Z) (old_feature : vec R) (old_point : Gaussian2D R) :
  let point_index := point_index_of end_offset group_offset_base in_group_idx in
  point_index < last_point_idx ->
  sget (tile_point sh) in_group_idx = Ok pt ->
  sget (tile_feature sh) in_group_idx = Ok feature ->
  conic_pdf_with_grad (pixel_centre pixel) (g_mean pt) (g_conic pt) =
    (gaussian_alpha, dp_dmean, dp_dconic) ->
  (g_alpha pt *! gaussian_alpha <?! lit (alpha_threshold config)) = false ->
  length feature = length (w_i st) ->
  length grad = length feature ->
  aget (overlap_to_point inp) point_index = Ok point_offset ->
  aget (grad_point_features (walk_grads st)) point_offset = Ok old_feature ->
  length old_feature = length grad ->
  aget (grad_points (walk_grads st)) point_offset = Ok old_point ->
  let a := smin (g_alpha pt *! gaussian_alpha) (lit (clamp_max_alpha config)) in
  let T := T_i st /! (lit 1 -! a) in
  let alpha_grad :=
    vsum (zipw smul
            (zipw ssub (vmuls feature T) (vdivs (w_i st) (lit 1 -! a))) grad) in
  let w := zipw sadd (w_i st) (vmuls (vmuls feature a) T) in
  blend_update config feature grad (g_alpha pt *! gaussian_alpha) (T_i st) (w_i st)
    = Ok (a, T, w, alpha_grad) /\
  exists g,
    process_entry conic_pdf_with_grad config inp pixel last_point_idx grad
      end_offset group_offset_base sh in_group_idx st
    = Ok {| T_i := T; w_i := w; walk_grads := g |}.
Proof.
  intros point_index Hlast Hpt Hfeat Hpdf Hthr Hw Hg Hoff Hof Hofl Hop a T alpha_grad w.
  split.
  - apply blend_update_same_size; assumption.
  - eexists.
    apply (process_entry_contributing conic_pdf_with_grad config inp pixel
             last_point_idx grad end_offset group_offset_base sh in_group_idx st
             pt feature gaussian_alpha dp_dmean dp_dconic point_offset
             old_feature old_point); assumption.
Qed.

(** C2.  For a primitive that contributes at a pixel, the iteration adds to
    the primitive's two gradient entries and leaves every other entry as it
    was: the feature entry grows by alpha * T_i * the incoming pixel gradient,
    the packed entry by alpha_grad * (opacity * d density / d mean,
    opacity * d density / d conic, density). *)
Theorem C2_gradients_accumulate
  (inp : Inputs R) (pixel : Z * Z) (last_point_idx : Z) (grad : vec R)
  (end_offset group_offset_base : Z) (sh : Shared R) (in_group_idx : Z)
  (st : Walk R) (pt : Gaussian2D R) (feature : vec R)
  (gaussian_alpha : R) (dp_dmean : R * R) (dp_dconic : R * R * R)
  (point_offset : Z) (old_feature : vec R) (old_point : Gaussian2D R) :
  let point_index := point_index_of end_offset group_offset_base in_group_idx in
  point_index < last_point_idx ->
  sget (tile_point sh) in_group_idx = Ok pt ->
  sget (tile_feature sh) in_group_idx = Ok feature ->
  conic_pdf_with_grad (pixel_centre pixel) (g_mean pt) (g_conic pt) =
    (gaussian_alpha, dp_dmean, dp_dconic) ->
  (g_alpha pt *! gaussian_alpha <?! lit (alpha_threshold config)) = false ->
  length feature = length (w_i st) ->
  length grad = length feature ->
  aget (overlap_to_point inp) point_index = Ok point_offset ->
  aget (grad_point_features (walk_grads st)) point_offset = Ok old_feature ->
  length old_feature = length grad ->
  aget (grad_points (walk_grads st)) point_offset = Ok old_point ->
  let a := smin (g_alpha pt *! gaussian_alpha) (lit (clamp_max_alpha config)) in
  let T := T_i st /! (lit 1 -! a) in
  let alpha_grad :=
    vsum (zipw smul
            (zipw ssub (vmuls feature T) (vdivs (w_i st) (lit 1 -! a))) grad) in
  exists st',
    process_entry conic_pdf_with_grad config inp pixel last_point_idx grad
      end_offset group_offset_base sh in_group_idx st = Ok st' /\
    aget (grad_point_features (walk_grads st')) point_offset
      = Ok (zipw sadd old_feature (smulv (a *! T) grad)) /\
    aget (grad_points (walk_grads st')) point_offset
      = Ok (G2D_add old_point
              (G2D_scale alpha_grad
                 (G2D_pack (scale2 (g_alpha pt) dp_dmean)
                           (scale3 (g_alpha pt) dp_dconic)
                           gaussian_alpha))) /\
    forall j, j <> point_offset ->
      aget (grad_point_features (walk_grads st')) j
        = aget (grad_point_features (walk_grads st)) j /\
      aget (grad_points (walk_grads st')) j
        = aget (grad_points (walk_grads st)) j.
Proof.
  intros point_index Hlast Hpt Hfeat Hpdf Hthr Hw Hg Hoff Hof Hofl Hop a T alpha_grad.
  eexists. split.
  - apply (process_entry_contributing conic_pdf_with_grad config inp pixel
             last_point_idx grad end_offset group_offset_base sh in_group_idx st
             pt feature gaussian_alpha dp_dmean dp_dconic point_offset
             old_feature old_point); assumption.
  - cbn [walk_grads grad_point_features grad_points].
    pose proof (aget_bounds _ _ _ Hof) as Bf.
    pose proof (aget_bounds _ _ _ Hop) as Bp.
    split; [apply aget_update_same; exact Bf|].
    split; [apply aget_update_same; exact Bp|].
    intros j Hj. split; apply aget_update_other; lia.
Qed.

(** C3.  For an entry of the page whose alpha (opacity times density, before
    any clamp) is under [alpha_threshold], the iteration changes nothing:
    neither gradient buffer, nor T_i, nor w. *)
Theorem C3_below_threshold_is_skipped
  (inp : Inputs R) (pixel : Z * Z) (last_point_idx : Z) (grad : vec R)
  (end_offset group_offset_base : Z) (sh : Shared R) (in_group_idx : Z)
  (st : Walk R) (pt : Gaussian2D R) (feature : vec R) :
  sget (tile_point sh) in_group_idx = Ok pt ->
  sget (tile_feature sh) in_group_idx = Ok feature ->
  (g_alpha pt *!
     fst (fst (conic_pdf_with_grad (pixel_centre pixel) (g_mean pt) (g_conic pt)))
   <?! lit (alpha_threshold config)) = true ->
  process_entry conic_pdf_with_grad config inp pixel last_point_idx grad
    end_offset group_offset_base sh in_group_idx st = Ok st.
Proof.
  intros Hpt Hfeat Hthr. unfold process_entry.
  destruct (_ >=? _); [reflexivity|].
  rewrite Hpt, Hfeat. cbn [bind].
  apply blend_entry_below_threshold. exact Hthr.
Qed.

(** C10.  The suffix sum is a vector of three components whatever the feature
    size is: the step of lines 128-137 on features and gradients of size F and
    a suffix sum of size three succeeds, and keeps a suffix sum of size three,
    exactly when F is three; for any other F it stops on a size mismatch. *)
Theorem C10_suffix_sum_is_three_wide
  (F : nat) (feature grad : vec R) (alpha T : R) (w : vec R) :
  length feature = F ->
  length grad = F ->
  length w = 3%nat ->
  length (vfill 3 (lit 0)) = 3%nat /\
  (F = 3%nat ->
     exists a T' w' g,
       blend_update config feature grad alpha T w = Ok (a, T', w', g) /\
       length w' = 3%nat) /\
  (F <> 3%nat ->
     blend_update config feature grad alpha T w = Err ShapeMismatch).
Proof.
  intros Hf Hg Hw. split; [apply vfill_length|]. split.
  - intros HF. do 4 eexists. split.
    + apply blend_update_same_size; congruence.
    + rewrite zipw_length; [exact Hw | rewrite !vmuls_length; congruence].
  - intros HF. apply blend_update_other_size. congruence.
Qed.

End StepProperties.

(* ------------------------------------------------------------------------- *)
(** ** The step on the sample scene *)

Lemma C1_reverse_step_order_witness :
  exists st',
    process_entry (SR := QScalar) Sample.pdf Sample.config Sample.inputs (0, 0) 6
      [1; 1; 1]%Q 6 0 Sample.shared0 0 Sample.walk0 = Ok st' /\
    (T_i st' == 3 # 8)%Q /\
    Forall2 Qeq (w_i st') [0; 0; 1 # 8]%Q.
Proof.
  pose (r := Sample.pdf (pixel_centre (SR := QScalar) (0, 0))
                (g_mean Sample.p2) (g_conic Sample.p2)).
  destruct (C1_reverse_step_order (SR := QScalar) Sample.pdf Sample.config
              Sample.inputs (0, 0) 6 [1; 1; 1]%Q 6 0 Sample.shared0 0 Sample.walk0
              Sample.p2 [0; 0; 1]%Q (fst (fst r)) (snd (fst r)) (snd r)
              2 [0; 0; 0]%Q Sample.zero_point)
    as [_ [g Hg]]; try (vm_compute; reflexivity).
  eexists. split; [exact Hg|]. split; [|repeat constructor]; vm_compute; reflexivity.
Defined.

Lemma C2_gradients_accumulate_witness :
  exists st' f p,
    process_entry (SR := QScalar) Sample.pdf Sample.config Sample.inputs (1, 0) 6
      [1; 2; 3]%Q 6 0 Sample.shared0 0 Sample.walk0 = Ok st' /\
    aget (grad_point_features (walk_grads st')) 2 = Ok f /\
    Forall2 Qeq f [99 # 4; 99 # 2; 297 # 4]%Q /\
    aget (grad_points (walk_grads st')) 2 = Ok p /\
    (g_alpha p == 75)%Q /\
    aget (grad_point_features (walk_grads st')) 0 = Ok [0; 0; 0]%Q.
Proof.
  pose (r := Sample.pdf (pixel_centre (SR := QScalar) (1, 0))
                (g_mean Sample.p2) (g_conic Sample.p2)).
  destruct (C2_gradients_accumulate (SR := QScalar) Sample.pdf Sample.config
              Sample.inputs (1, 0) 6 [1; 2; 3]%Q 6 0 Sample.shared0 0 Sample.walk0
              Sample.p2 [0; 0; 1]%Q (fst (fst r)) (snd (fst r)) (snd r)
              2 [0; 0; 0]%Q Sample.zero_point)
    as [st' [Hst [Hf [Hp Hother]]]]; try (vm_compute; reflexivity).
  exists st'. do 2 eexists.
  split; [exact Hst|]. split; [exact Hf|].
  split; [repeat constructor; vm_compute; reflexivity|].
  split; [exact Hp|].
  split; [vm_compute; reflexivity|].
  rewrite (proj1 (Hother 0 ltac:(lia))). reflexivity.
Defined.

Lemma C3_below_threshold_is_skipped_witness :
  process_entry (SR := QScalar) Sample.pdf Sample.config Sample.inputs (0, 0) 6
    [1; 1; 1]%Q 6 0 Sample.shared0 1 Sample.walk0 = Ok Sample.walk0.
Proof.
  apply (C3_below_threshold_is_skipped (SR := QScalar) Sample.pdf Sample.config
           Sample.inputs (0, 0) 6 [1; 1; 1]%Q 6 0 Sample.shared0 1 Sample.walk0
           Sample.p1 [0; 1; 0]%Q);
    vm_compute; reflexivity.
Defined.

Lemma C10_suffix_sum_is_three_wide_witness :
  (exists a T' w' g,
     blend_update (SR := QScalar) Sample.config [0; 0; 1]%Q [1; 1; 1]%Q
       (1 # 3)%Q (1 # 4)%Q [0; 0; 0]%Q = Ok (a, T', w', g) /\
     length w' = 3%nat) /\
  blend_update (SR := QScalar) Sample.config [0; 1]%Q [1; 1]%Q
    (1 # 3)%Q (1 # 4)%Q [0; 0; 0]%Q = Err ShapeMismatch.
Proof.
  split.
  - apply (C10_suffix_sum_is_three_wide (SR := QScalar) Sample.config 3
             [0; 0; 1]%Q [1; 1; 1]%Q (1 # 3)%Q (1 # 4)%Q [0; 0; 0]%Q);
      reflexivity.
  - apply (C10_suffix_sum_is_three_wide (SR := QScalar) Sample.config 2
             [0; 1]%Q [1; 1]%Q (1 # 3)%Q (1 # 4)%Q [0; 0; 0]%Q);
      try reflexivity.
    discriminate.
Defined.

(* ------------------------------------------------------------------------- *)
(** ** Ranges and pages *)

Lemma wrap_small (z : Z) : I32.in_range z -> I32.wrap z = z.
Proof.
  unfold I32.in_range, I32.wrap, I32.min_int, I32.max_int, I32.half, I32.modulus.
  intros H. rewrite Z.mod_small by lia. lia.
Qed.

Lemma in_range_intro (z : Z) : -2147483648 <= z <= 2147483647 -> I32.in_range z.
Proof. intros H. exact H. Qed.

Lemma sub_exact (a b : Z) :
  -2147483648 <= a - b <= 2147483647 -> I32.sub a b = a - b.
Proof. intros H. apply wrap_small. exact H. Qed.

Lemma add_exact (a b : Z) :
  -2147483648 <= a + b <= 2147483647 -> I32.add a b = a + b.
Proof. intros H. apply wrap_small. exact H. Qed.

Lemma mul_exact (a b : Z) :
  -2147483648 <= a * b <= 2147483647 -> I32.mul a b = a * b.
Proof. intros H. apply wrap_small. exact H. Qed.

Lemma range_nonpos (n : Z) : n <= 0 -> range n = [].
Proof.
  intros H. unfold range. replace (Z.to_nat n) with O by lia. reflexivity.
Qed.

Lemma range_length (n : Z) : length (range n) = Z.to_nat n.
Proof. unfold range. now rewrite length_map, length_seq. Qed.

Lemma In_range (n x : Z) : In x (range n) <-> 0 <= x < n.
Proof.
  unfold range. rewrite in_map_iff. split.
  - intros [k [Hk Hin]]. apply in_seq in Hin. lia.
  - intros H. exists (Z.to_nat x). split; [lia|]. apply in_seq. lia.
Qed.

Lemma seq_from (x y : nat) : seq x y = map (Nat.add x) (seq 0 y).
Proof.
  revert x. induction y as [|y IH]; intros x; [reflexivity|].
  cbn [seq map]. rewrite Nat.add_0_r. f_equal.
  rewrite <- (seq_shift y 0), map_map. rewrite (IH (S x)).
  apply map_ext. intros k. lia.
Qed.

Lemma range_app (a b : Z) :
  0 <= a -> 0 <= b -> range (a + b) = range a ++ map (Z.add a) (range b).
Proof.
  intros Ha Hb. unfold range.
  rewrite Z2Nat.inj_add by lia. rewrite seq_app, map_app. f_equal.
  cbn [Nat.add]. rewrite seq_from, !map_map.
  apply map_ext. intros k. lia.
Qed.

Lemma range_succ (n : Z) : 0 <= n -> range (n + 1) = range n ++ [n].
Proof.
  intros H. rewrite range_app by lia.
  change (range 1) with [0]. cbn [map]. now rewrite Z.add_0_r.
Qed.

Lemma flat_map_ext_in {A B} (f g : A -> list B) (l : list A) :
  (forall x, In x l -> f x = g x) -> flat_map f l = flat_map g l.
Proof.
  induction l as [|x l IH]; intros H; cbn [flat_map]; [reflexivity|].
  rewrite H by (left; reflexivity). f_equal. apply IH.
  intros y Hy. apply H. now right.
Qed.

Lemma map_flat_map {A B C} (h : B -> C) (f : A -> list B) (l : list A) :
  map h (flat_map f l) = flat_map (fun x => map h (f x)) l.
Proof.
  induction l as [|x l IH]; cbn [flat_map map]; [reflexivity|].
  now rewrite map_app, IH.
Qed.

(** Pages of [A] offsets cover [0 .. count - 1] in order, each offset once:
    the first [n] pages cover the first [min count (n * A)] offsets. *)
Lemma pages_cover_prefix (A count : Z) (n : nat) :
  0 < A -> 0 <= count ->
  flat_map (fun g => map (fun i => g * A + i) (range (Z.min A (count - g * A))))
           (range (Z.of_nat n))
  = range (Z.min count (Z.of_nat n * A)).
Proof.
  intros HA Hc. induction n as [|n IH].
  - cbn. rewrite range_nonpos by lia. reflexivity.
  - rewrite Nat2Z.inj_succ. unfold Z.succ. rewrite range_succ by lia.
    rewrite flat_map_app, IH. cbn [flat_map]. rewrite app_nil_r.
    destruct (Z_le_gt_dec count (Z.of_nat n * A)) as [Hle | Hgt].
    + rewrite (range_nonpos (Z.min A _)) by lia. cbn [map].
      rewrite app_nil_r. f_equal. nia.
    + replace (Z.min count ((Z.of_nat n + 1) * A))
        with (Z.min count (Z.of_nat n * A)
              + Z.min A (count - Z.of_nat n * A)) by nia.
      rewrite range_app by nia. f_equal.
      apply map_ext. intros i. nia.
Qed.

Lemma pages_cover (A count : Z) :
  0 < A -> 0 <= count ->
  flat_map (fun g => map (fun i => g * A + i) (range (Z.min A (count - g * A))))
           (range ((count + A - 1) / A))
  = range count.
Proof.
  intros HA Hc.
  assert (HG : 0 <= (count + A - 1) / A) by (apply Z.div_pos; lia).
  rewrite <- (Z2Nat.id _ HG) at 1.
  rewrite pages_cover_prefix by assumption. f_equal.
  rewrite Z2Nat.id by assumption.
  pose proof (Z.mul_div_le (count + A - 1) A HA).
  pose proof (Z.mul_succ_div_gt (count + A - 1) A HA).
  nia.
Qed.



Section Paging.
Variable config : Config.
Variables start_offset end_offset : Z.
Hypothesis Hts : 0 < tile_size config.
Hypothesis HA : tile_area config <= I32.max_int.
Hypothesis Hrange : 0 <= start_offset <= end_offset.
Hypothesis Hend : end_offset <= I32.max_int.

Lemma tile_area_pos : 0 < tile_area config.
Proof. unfold tile_area. nia. Qed.


Hypothesis Hcount : end_offset - start_offset + tile_area config - 1 <= I32.max_int.

Lemma num_point_groups_ceil :
  num_point_groups config start_offset end_offset
  = (end_offset - start_offset + tile_area config - 1) / tile_area config.
Proof.
  pose proof tile_area_pos as HA0.
  unfold I32.max_int in *. unfold num_point_groups.
  set (A := tile_area config) in *.
  assert (Hq : 0 <= (end_offset - start_offset + A - 1) / A <= 2147483647).
  { split.
    - apply Z.div_pos; lia.
    - apply Z.div_le_upper_bound; nia. }
  unfold I32.sub, I32.add, I32.floordiv.
  rewrite (wrap_small (end_offset - start_offset)) by (apply in_range_intro; lia).
  replace (end_offset - start_offset + (A - 1))
    with (end_offset - start_offset + A - 1) by lia.
  rewrite (wrap_small (end_offset - start_offset + A - 1))
    by (apply in_range_intro; lia).
  apply wrap_small. apply in_range_intro. lia.
Qed.

(** The pages before the last are full; the last one ends the range. *)
Lemma page_bounds (g : Z) :
  0 <= g < num_point_groups config start_offset end_offset ->
  0 <= g * tile_area config < end_offset - start_offset.
Proof.
  pose proof tile_area_pos as HA0.
  rewrite num_point_groups_ceil. intros Hg.
  set (A := tile_area config) in *.
  pose proof (Z.mul_div_le (end_offset - start_offset + A - 1) A HA0).
  nia.
Qed.

Lemma group_offset_base_exact (g : Z) :
  0 <= g < num_point_groups config start_offset end_offset ->
  I32.mul g (tile_area config) = g * tile_area config.
Proof.
  intros Hg. apply page_bounds in Hg. unfold I32.max_int in *.
  unfold I32.mul. apply wrap_small. apply in_range_intro. lia.
Qed.

Lemma point_group_size_exact (g : Z) :
  0 <= g < num_point_groups config start_offset end_offset ->
  point_group_size config start_offset end_offset (g * tile_area config)
  = Z.min (tile_area config) (end_offset - start_offset - g * tile_area config).
Proof.
  intros Hg. apply page_bounds in Hg. unfold I32.max_int in *.
  unfold point_group_size, I32.sub.
  rewrite (wrap_small (end_offset - start_offset)) by (apply in_range_intro; lia).
  rewrite wrap_small by (apply in_range_intro; lia). reflexivity.
Qed.

Lemma point_index_exact (g i : Z) :
  0 <= g < num_point_groups config start_offset end_offset ->
  0 <= i < point_group_size config start_offset end_offset (g * tile_area config) ->
  point_index_of end_offset (g * tile_area config) i
  = end_offset - 1 - (g * tile_area config + i).
Proof.
  intros Hg Hi. rewrite point_group_size_exact in Hi by exact Hg.
  apply page_bounds in Hg. unfold I32.max_int in *.
  unfold point_index_of, I32.add, I32.sub.
  rewrite (wrap_small (g * tile_area config + i)) by (apply in_range_intro; lia).
  rewrite (wrap_small (end_offset - _)) by (apply in_range_intro; lia).
  rewrite wrap_small by (apply in_range_intro; lia). lia.
Qed.

(** The indices the two nested loops reach are [end - 1, ..., start]. *)
Lemma visited_indices_descending :
  visited_indices config start_offset end_offset
  = descending start_offset end_offset.
Proof.
  pose proof tile_area_pos as HA0.
  unfold visited_indices, descending.
  rewrite <- (pages_cover (tile_area config) (end_offset - start_offset))
    by lia.
  rewrite map_flat_map. rewrite <- num_point_groups_ceil.
  apply flat_map_ext_in. intros g Hg. apply In_range in Hg.
  rewrite group_offset_base_exact by exact Hg.
  rewrite map_map.
  rewrite <- point_group_size_exact by exact Hg.
  apply map_ext_in. intros i Hi. apply In_range in Hi.
  apply point_index_exact; assumption.
Qed.

End Paging.

(* ------------------------------------------------------------------------- *)
(** ** Loading a page *)

Section Loading.
Context {R : Type}.
Variable config : Config.
Variable inp : Inputs R.
Variable end_offset : Z.
Hypothesis Hts : 0 < tile_size config.
Hypothesis HA : tile_area config <= I32.max_int.
Hypothesis Hend : end_offset <= I32.max_int.
Hypothesis Hvalid : entries_valid inp end_offset.

(** The tasks of a block have the thread ids [0 .. tile_area - 1]. *)
Lemma block_thread_ids :
  map (thread_id_of config) (block_threads config) = range (tile_area config).
Proof.
  unfold block_threads, tile_area. unfold I32.max_int, tile_area in HA.
  set (ts := tile_size config) in *.
  rewrite map_flat_map.
  rewrite <- (pages_cover ts (ts * ts)) by nia.
  replace ((ts * ts + ts - 1) / ts) with ts
    by (apply Z.div_unique with (r := ts - 1); [left; lia | nia]).
  apply flat_map_ext_in. intros v Hv. apply In_range in Hv.
  rewrite map_map.
  replace (Z.min ts (ts * ts - v * ts)) with ts by nia.
  apply map_ext_in. intros u Hu. apply In_range in Hu.
  unfold thread_id_of. cbn [fst snd]. fold ts.
  unfold I32.add, I32.mul.
  rewrite (wrap_small (v * ts)) by (apply in_range_intro; nia).
  rewrite wrap_small by (apply in_range_intro; nia). lia.
Qed.

Lemma sget_update_same {X} (a : list (option X)) (i : Z) (x : X) :
  0 <= i < Z.of_nat (length a) -> sget (update a (Z.to_nat i) (Some x)) i = Ok x.
Proof.
  intros H. unfold sget. rewrite aget_update_same by exact H. reflexivity.
Qed.

Lemma sget_update_other {X} (a : list (option X)) (i j : Z) (x : option X) :
  0 <= i -> i <> j -> sget (update a (Z.to_nat i) x) j = sget a j.
Proof.
  intros H Hij. unfold sget. rewrite aget_update_other by assumption. reflexivity.
Qed.

(** What one task's load does to the shared arrays. *)
Lemma load_entry_spec (block_end_idx block_start_idx thread_id : Z) (sh : Shared R) :
  shared_sized config sh ->
  0 <= block_start_idx ->
  0 <= block_end_idx <= end_offset ->
  0 <= thread_id < tile_area config ->
  exists sh',
    load_entry inp block_end_idx block_start_idx thread_id sh = Ok sh' /\
    shared_sized config sh' /\
    (block_start_idx <= block_end_idx - thread_id - 1 ->
       slot_holds inp sh' thread_id (block_end_idx - thread_id - 1)) /\
    (forall j, j <> thread_id ->
       sget (tile_point sh') j = sget (tile_point sh) j /\
       sget (tile_feature sh') j = sget (tile_feature sh) j).
Proof.
  intros [Hp Hf] Hs He Ht. unfold I32.max_int in *.
  unfold load_entry, I32.sub.
  rewrite (wrap_small (block_end_idx - thread_id)) by (apply in_range_intro; lia).
  rewrite wrap_small by (apply in_range_intro; lia).
  destruct (Z.geb_spec (block_end_idx - thread_id - 1) block_start_idx) as [Hge | Hlt].
  - destruct (Hvalid (block_end_idx - thread_id - 1)) as [pi [p [f [Ho [Hpt Hft]]]]];
      [lia|].
    rewrite Ho. cbn [bind]. rewrite Hpt. cbn [bind].
    rewrite aset_Ok by lia. cbn [bind]. rewrite Hft. cbn [bind].
    rewrite aset_Ok by lia. cbn [bind].
    eexists. split; [reflexivity|]. split; [|split].
    + split; cbn [tile_point tile_feature]; rewrite update_length; assumption.
    + intros _. exists pi, p, f. cbn [tile_point tile_feature].
      repeat split; try assumption; apply sget_update_same; lia.
    + intros j Hj. cbn [tile_point tile_feature].
      split; apply sget_update_other; lia.
  - exists sh. split; [reflexivity|]. split; [split; assumption|]. split.
    + intros H. lia.
    + intros j _. split; reflexivity.
Qed.

(** What the loads of a list of tasks do, one after the other. *)
Lemma load_entries_spec (block_end_idx block_start_idx : Z) (tids : list Z) :
  0 <= block_start_idx ->
  0 <= block_end_idx <= end_offset ->
  (forall t, In t tids -> 0 <= t < tile_area config) ->
  forall sh, shared_sized config sh ->
  exists sh',
    foldM (load_entry inp block_end_idx block_start_idx) tids sh = Ok sh' /\
    shared_sized config sh' /\
    (forall t, In t tids -> block_start_idx <= block_end_idx - t - 1 ->
       slot_holds inp sh' t (block_end_idx - t - 1)).
Proof.
  intros Hs He. induction tids as [|t tids IH] using rev_ind; intros Hin sh Hsz.
  - exists sh. split; [reflexivity|]. split; [assumption|]. intros t [].
  - destruct (IH (fun x Hx => Hin x (in_or_app _ _ _ (or_introl Hx))) sh Hsz)
      as [sh1 [H1 [Hsz1 Hold]]].
    destruct (load_entry_spec block_end_idx block_start_idx t sh1 Hsz1 Hs He)
      as [sh2 [H2 [Hsz2 [Hnew Hkeep]]]].
    { apply Hin. apply in_or_app. right. now left. }
    exists sh2. rewrite foldM_app, H1. cbn [bind foldM]. rewrite H2. cbn [bind].
    split; [reflexivity|]. split; [assumption|].
    intros x Hx Hguard. destruct (Z.eq_dec x t) as [-> | Hne].
    + apply Hnew. exact Hguard.
    + apply in_app_or in Hx. destruct Hx as [Hx | [Hx | []]]; [|congruence].
      destruct (Hold x Hx Hguard) as [pi [p [f [Ho [Hpt [Hft [Hsp Hsf]]]]]]].
      exists pi, p, f. destruct (Hkeep x Hne) as [Kp Kf].
      repeat split; try assumption; congruence.
Qed.

(** After the load phase of a page, every slot the page consumes holds the
    data of its list entry. *)
Lemma load_page_spec (group_offset_base : Z) (sh : Shared R) :
  shared_sized config sh ->
  0 <= group_offset_base < end_offset ->
  exists sh',
    load_page config inp end_offset group_offset_base sh = Ok sh' /\
    shared_sized config sh' /\
    (forall i, 0 <= i < tile_area config ->
       0 <= end_offset - group_offset_base - i - 1 ->
       slot_holds inp sh' i (end_offset - group_offset_base - i - 1)).
Proof.
  intros Hsz Hg. unfold I32.max_int in *. unfold load_page.
  rewrite !(sub_exact end_offset group_offset_base) by lia.
  set (bend := end_offset - group_offset_base).
  set (bstart := Z.max (I32.sub bend (tile_area config)) 0).
  rewrite <- (foldM_map (thread_id_of config)
                (load_entry inp bend bstart)).
  rewrite block_thread_ids.
  destruct (load_entries_spec bend bstart (range (tile_area config)))
    with (sh := sh) as [sh' [H1 [Hsz' Hall]]];
    try assumption; try (unfold bstart, bend; lia).
  { intros t Ht. now apply In_range in Ht. }
  exists sh'. split; [exact H1|]. split; [exact Hsz'|].
  intros i Hi Hidx. apply Hall; [now apply In_range|].
  unfold bstart. rewrite sub_exact by (unfold bend; lia).
  unfold bend. lia.
Qed.

End Loading.

(* ------------------------------------------------------------------------- *)
(** ** The paged walk and the straight walk *)

Section Refinement.
Context {R : Type} {SR : Scalar R}.
Variable conic_pdf_with_grad :
  R * R -> R * R -> R * R * R -> R * (R * R) * (R * R * R).
Variable config : Config.
Variable inp : Inputs R.
Variable pixel : Z * Z.
Variable last_point_idx : Z.
Variable grad : vec R.
Variables start_offset end_offset : Z.
Hypothesis Hts : 0 < tile_size config.
Hypothesis HA : tile_area config <= I32.max_int.
Hypothesis Hrange : 0 <= start_offset <= end_offset.
Hypothesis Hend : end_offset <= I32.max_int.
Hypothesis Hcount : end_offset - start_offset + tile_area config - 1 <= I32.max_int.
Hypothesis Hvalid : entries_valid inp end_offset.

(** An iteration that finds its entry's data in its slot does what the
    straight walk does at that entry. *)
Lemma process_entry_direct (group_offset_base : Z) (sh : Shared R) (i : Z)
  (st : Walk R) :
  slot_holds inp sh i (point_index_of end_offset group_offset_base i) ->
  process_entry conic_pdf_with_grad config inp pixel last_point_idx grad
    end_offset group_offset_base sh i st
  = direct_entry conic_pdf_with_grad config inp pixel last_point_idx grad
      (point_index_of end_offset group_offset_base i) st.
Proof.
  intros [pi [p [f [Ho [Hp [Hf [Hsp Hsf]]]]]]].
  unfold process_entry, direct_entry.
  destruct (_ >=? _); [reflexivity|].
  rewrite Hsp, Hsf, Ho. cbn [bind]. rewrite Hp. cbn [bind]. rewrite Hf.
  reflexivity.
Qed.

Lemma point_group_size_bounds (g : Z) :
  0 <= g < num_point_groups config start_offset end_offset ->
  0 < point_group_size config start_offset end_offset (g * tile_area config)
    <= tile_area config.
Proof.
  intros Hg.
  rewrite (point_group_size_exact config start_offset end_offset Hts HA Hrange
             Hend Hcount g Hg).
  pose proof (page_bounds config start_offset end_offset Hts HA Hrange Hend
                Hcount g Hg).
  pose proof (tile_area_pos config Hts). lia.
Qed.

(** The load phase of a page fills every slot the page consumes. *)
Lemma page_is_loaded (g : Z) (sh : Shared R) :
  0 <= g < num_point_groups config start_offset end_offset ->
  shared_sized config sh ->
  exists sh',
    load_page config inp end_offset (g * tile_area config) sh = Ok sh' /\
    shared_sized config sh' /\
    forall i,
      0 <= i < point_group_size config start_offset end_offset
                 (g * tile_area config) ->
      slot_holds inp sh' i (point_index_of end_offset (g * tile_area config) i).
Proof.
  intros Hg Hsz.
  pose proof (page_bounds config start_offset end_offset Hts HA Hrange Hend
                Hcount g Hg) as Hb.
  pose proof (point_group_size_bounds g Hg) as Hs.
  destruct (load_page_spec config inp end_offset Hts HA Hend Hvalid
              (g * tile_area config) sh Hsz) as [sh' [Hl [Hsz' Hslots]]];
    [lia|].
  exists sh'. split; [exact Hl|]. split; [exact Hsz'|].
  intros i Hi.
  rewrite (point_index_exact config start_offset end_offset Hts HA Hrange Hend
             Hcount g i Hg Hi).
  rewrite (point_group_size_exact config start_offset end_offset Hts HA Hrange
             Hend Hcount g Hg) in Hi.
  replace (end_offset - 1 - (g * tile_area config + i))
    with (end_offset - g * tile_area config - i - 1) by lia.
  apply Hslots; lia.
Qed.

(** One page of the paged walk is a stretch of the straight walk. *)
Lemma point_group_direct (g : Z) (sh : Shared R) (st : Walk R) :
  0 <= g < num_point_groups config start_offset end_offset ->
  shared_sized config sh ->
  exists sh',
    shared_sized config sh' /\
    point_group conic_pdf_with_grad config inp pixel last_point_idx grad
      start_offset end_offset g (sh, st)
    = result_map (pair sh')
        (foldM (direct_entry conic_pdf_with_grad config inp pixel
                  last_point_idx grad)
           (map (point_index_of end_offset (I32.mul g (tile_area config)))
              (range (point_group_size config start_offset end_offset
                        (I32.mul g (tile_area config)))))
           st).
Proof.
  intros Hg Hsz.
  rewrite (group_offset_base_exact config start_offset end_offset Hts HA Hrange
             Hend Hcount g Hg).
  destruct (page_is_loaded g sh Hg Hsz) as [sh' [Hl [Hsz' Hslots]]].
  exists sh'. split; [exact Hsz'|].
  unfold point_group. cbn [fst snd].
  rewrite (group_offset_base_exact config start_offset end_offset Hts HA Hrange
             Hend Hcount g Hg).
  rewrite Hl. cbn [bind].
  rewrite foldM_map.
  rewrite (foldM_ext
             (process_entry conic_pdf_with_grad config inp pixel last_point_idx
                grad end_offset (g * tile_area config) sh')
             (fun i => direct_entry conic_pdf_with_grad config inp pixel
                         last_point_idx grad
                         (point_index_of end_offset (g * tile_area config) i))).
  - destruct (foldM _ _ st); reflexivity.
  - intros i s Hi. apply In_range in Hi.
    apply process_entry_direct. apply Hslots. exact Hi.
Qed.

Lemma walk_pages_direct (gs : list Z) :
  (forall g, In g gs -> 0 <= g < num_point_groups config start_offset end_offset) ->
  forall sh st, shared_sized config sh ->
  result_map snd
    (foldM (point_group conic_pdf_with_grad config inp pixel last_point_idx grad
              start_offset end_offset) gs (sh, st))
  = foldM (direct_entry conic_pdf_with_grad config inp pixel last_point_idx grad)
      (flat_map (fun g =>
         map (point_index_of end_offset (I32.mul g (tile_area config)))
             (range (point_group_size config start_offset end_offset
                       (I32.mul g (tile_area config))))) gs)
      st.
Proof.
  induction gs as [|g gs IH]; intros Hin sh st Hsz.
  - reflexivity.
  - cbn [foldM flat_map]. rewrite foldM_app.
    destruct (point_group_direct g sh st (Hin g (or_introl eq_refl)) Hsz)
      as [sh' [Hsz' Hpg]].
    rewrite Hpg.
    destruct (foldM _ (map _ _) st) as [st1 | e]; cbn [result_map bind].
    + apply IH; [|exact Hsz']. intros x Hx. apply Hin. now right.
    + reflexivity.
Qed.

Lemma shared_init_sized : shared_sized config (shared_init config : Shared R).
Proof.
  pose proof (tile_area_pos config Hts).
  unfold shared_sized, shared_init. cbn [tile_point tile_feature].
  rewrite !repeat_length. lia.
Qed.

(** The paged walk computes what the straight walk computes. *)
Lemma pixel_walk_straight (st : Walk R) :
  result_map snd
    (pixel_walk conic_pdf_with_grad config inp pixel last_point_idx grad
       start_offset end_offset st)
  = straight_walk conic_pdf_with_grad config inp pixel last_point_idx grad
      start_offset end_offset st.
Proof.
  unfold pixel_walk, straight_walk.
  rewrite walk_pages_direct.
  - fold (visited_indices config start_offset end_offset).
    now rewrite (visited_indices_descending config start_offset end_offset
                   Hts HA Hrange Hend Hcount).
  - intros g Hg. now apply In_range in Hg.
  - apply shared_init_sized.
Qed.

End Refinement.

Lemma In_descending (s e x : Z) : In x (descending s e) <-> s <= x < e.
Proof.
  unfold descending. rewrite in_map_iff. split.
  - intros [k [Hk Hin]]. apply In_range in Hin. lia.
  - intros H. exists (e - 1 - x). split; [lia|]. apply In_range. lia.
Qed.



Lemma Sample_entries_valid : entries_valid Sample.inputs 6.
Proof.
  intros k Hk.
  assert (Hc : k = 0 \/ k = 1 \/ k = 2 \/ k = 3 \/ k = 4 \/ k = 5) by lia.
  destruct Hc as [-> | [-> | [-> | [-> | [-> | ->]]]]];
    do 3 eexists; repeat split; reflexivity.
Qed.

(* ------------------------------------------------------------------------- *)
(** ** The order of the walk, [last_valid], and the pages *)

Section WalkProperties.
Context {R : Type} {SR : Scalar R}.
Variable conic_pdf_with_grad :
  R * R -> R * R -> R * R * R -> R * (R * R) * (R * R * R).
Variable config : Config.



End WalkProperties.




(* ------------------------------------------------------------------------- *)
(** ** The configuration *)

(** C7.  The configuration record has the four fields tile_size,
    clamp_max_alpha, alpha_threshold and saturate_threshold and nothing else,
    and their defaults are 16, 0.99, 1/255 and 0.9999. *)
Theorem C7_config_defaults :
  (forall c : Config,
     c = Build_Config (tile_size c) (clamp_max_alpha c) (alpha_threshold c)
           (saturate_threshold c)) /\
  tile_size Config_default = 16 /\
  clamp_max_alpha Config_default = (99 # 100)%Q /\
  alpha_threshold Config_default = (1 # 255)%Q /\
  saturate_threshold Config_default = (9999 # 10000)%Q /\
  (forall t a b s,
     Config_init (Some t) (Some a) (Some b) (Some s) = Build_Config t a b s).
Proof.
  split; [intros []; reflexivity|].
  repeat split; reflexivity.
Qed.

(* ------------------------------------------------------------------------- *)
(** ** Divisions and the clamp *)

Lemma clamped_divisor_positive (cmax alpha : Q) :
  (cmax < 1)%Q -> (0 < 1 - Qmin alpha cmax)%Q.
Proof.
  intros H. pose proof (Q.le_min_r alpha cmax) as Hm. lra.
Qed.

(** Un-dividing undoes the forward multiply [T *= (1 - alpha)]: started from
    the transmittance after a primitive, the step recovers the transmittance
    before it. *)
Lemma undivide_restores_transmittance (config : Config) (feature grad : vec Q)
  (alpha T0 : Q) (w : vec Q) :
  (clamp_max_alpha config < 1)%Q ->
  length feature = length w ->
  length grad = length feature ->
  exists a T' w' g,
    blend_update (SR := QScalar) config feature grad alpha
      (T0 * (1 - Qmin alpha (clamp_max_alpha config)))%Q w = Ok (a, T', w', g) /\
    (T' == T0)%Q.
Proof.
  intros Hc Hw Hg.
  pose proof (clamped_divisor_positive _ alpha Hc) as Hpos.
  do 4 eexists. split.
  - apply (blend_update_same_size (SR := QScalar)); assumption.
  - cbn [sdiv ssub smin lit QScalar QScalar_with]. field. lra.
Qed.

Section Divisions.
Variable conic_pdf_with_grad :
  Q * Q -> Q * Q -> Q * Q * Q -> Q * (Q * Q) * (Q * Q * Q).
Variable config : Config.
Variable d : Q -> Q -> Q.
Hypothesis Hclamp : (clamp_max_alpha config < 1)%Q.
Hypothesis Hd : forall x y, (0 < y)%Q -> d x y = Qdiv x y.










End Divisions.





(* ------------------------------------------------------------------------- *)
(** ** What the kernel leaves in the saved arrays *)

Lemma aset2_inv {X} (a a' : list (list X)) (y x : Z) (v : X) :
  aset2 a y x v = Ok a' ->
  aget2 a' y x = Ok v /\
  forall y' x', (y', x') <> (y, x) -> aget2 a' y' x' = aget2 a y' x'.
Proof.
  unfold aset2. intros H.
  apply bind_Ok_inv in H. destruct H as [row [Hrow H]].
  apply bind_Ok_inv in H. destruct H as [row' [Hrow' H]].
  apply aset_inv in Hrow'. destruct Hrow' as [Hx ->].
  apply aset_inv in H. destruct H as [Hy ->].
  split.
  - unfold aget2. rewrite aget_update_same by exact Hy. cbn [bind].
    apply aget_update_same. exact Hx.
  - intros y' x' Hne. unfold aget2.
    destruct (Z.eq_dec y' y) as [-> | Hy'].
    + rewrite aget_update_same by exact Hy. rewrite Hrow. cbn [bind].
      apply aget_update_other; [lia|]. congruence.
    + rewrite aget_update_other by lia. reflexivity.
Qed.

Lemma NoDup_flat_map {A B} (f : A -> list B) (l : list A) :
  NoDup l ->
  (forall x, In x l -> NoDup (f x)) ->
  (forall x y z, In x l -> In y l -> In z (f x) -> In z (f y) -> x = y) ->
  NoDup (flat_map f l).
Proof.
  induction l as [|a l IH]; intros Hl Hf Hdis; cbn [flat_map]; [constructor|].
  apply NoDup_cons_iff in Hl. destruct Hl as [Ha Hl].
  apply NoDup_app.
  - apply Hf. now left.
  - apply IH; [exact Hl | |].
    + intros x Hx. apply Hf. now right.
    + intros x y z Hx Hy. apply Hdis; now right.
  - intros z Hz Hz'. apply in_flat_map in Hz'. destruct Hz' as [y [Hy Hzy]].
    apply Ha. rewrite (Hdis a y z); auto; [now left | now right].
Qed.

Lemma NoDup_map_on {A B} (f : A -> B) (l : list A) :
  NoDup l ->
  (forall x y, In x l -> In y l -> f x = f y -> x = y) ->
  NoDup (map f l).
Proof.
  induction l as [|a l IH]; intros Hl Hinj; cbn [map]; [constructor|].
  apply NoDup_cons_iff in Hl. destruct Hl as [Ha Hl]. constructor.
  - intros Hin. apply in_map_iff in Hin. destruct Hin as [x [Hfx Hx]].
    apply Ha. rewrite <- (Hinj x a); auto; [now right | now left].
  - apply IH; [exact Hl|]. intros x y Hx Hy. apply Hinj; now right.
Qed.

Lemma range_NoDup (n : Z) : NoDup (range n).
Proof.
  unfold range. apply Injective_map_NoDup; [|apply seq_NoDup].
  intros a b H. lia.
Qed.

Lemma In_ndrange4 (A B C D a b c d : Z) :
  In (a, b, c, d) (ndrange4 A B C D)
  <-> 0 <= a < A /\ 0 <= b < B /\ 0 <= c < C /\ 0 <= d < D.
Proof.
  unfold ndrange4. rewrite in_flat_map. split.
  - intros [i [Hi H]]. apply in_flat_map in H. destruct H as [j [Hj H]].
    apply in_flat_map in H. destruct H as [k [Hk H]].
    apply in_map_iff in H. destruct H as [l [E Hl]]. inversion E; subst.
    rewrite In_range in Hi, Hj, Hk, Hl. tauto.
  - intros [Ha [Hb [Hc Hd]]]. exists a. split; [now apply In_range|].
    apply in_flat_map. exists b. split; [now apply In_range|].
    apply in_flat_map. exists c. split; [now apply In_range|].
    apply in_map_iff. exists d. split; [reflexivity | now apply In_range].
Qed.

Lemma ndrange4_NoDup (A B C D : Z) : NoDup (ndrange4 A B C D).
Proof.
  unfold ndrange4.
  apply NoDup_flat_map; [apply range_NoDup | |].
  - intros i _. apply NoDup_flat_map; [apply range_NoDup | |].
    + intros j _. apply NoDup_flat_map; [apply range_NoDup | |].
      * intros k _. apply Injective_map_NoDup; [|apply range_NoDup].
        intros x y E. now inversion E.
      * intros k k' z _ _ Hz Hz'.
        apply in_map_iff in Hz. destruct Hz as [l [<- _]].
        apply in_map_iff in Hz'. destruct Hz' as [l' [E _]]. now inversion E.
    + intros j j' z _ _ Hz Hz'.
      apply in_flat_map in Hz. destruct Hz as [k [_ Hz]].
      apply in_map_iff in Hz. destruct Hz as [l [<- _]].
      apply in_flat_map in Hz'. destruct Hz' as [k' [_ Hz']].
      apply in_map_iff in Hz'. destruct Hz' as [l' [E _]]. now inversion E.
  - intros i i' z _ _ Hz Hz'.
    apply in_flat_map in Hz. destruct Hz as [j [_ Hz]].
    apply in_flat_map in Hz. destruct Hz as [k [_ Hz]].
    apply in_map_iff in Hz. destruct Hz as [l [<- _]].
    apply in_flat_map in Hz'. destruct Hz' as [j' [_ Hz']].
    apply in_flat_map in Hz'. destruct Hz' as [k' [_ Hz']].
    apply in_map_iff in Hz'. destruct Hz' as [l' [E _]]. now inversion E.
Qed.

Section KernelFacts.
Context {R : Type} {SR : Scalar R}.
Variable conic_pdf_with_grad :
  R * R -> R * R -> R * R * R -> R * (R * R) * (R * R * R).
Variable config : Config.
Variable feature_size : nat.
Variable inp : Inputs R.
Local Open Scope scalar_scope.

(** What one task does to the saved arrays. *)
Lemma thread_inv (tiles_wide tile_v tile_u v u : Z) (mem mem' : Memory R) :
  thread conic_pdf_with_grad config feature_size inp tiles_wide tile_v tile_u v u
    mem = Ok mem' ->
  pixel_overwritten conic_pdf_with_grad config feature_size inp mem mem'
    (tile_id_of tiles_wide tile_v tile_u) (pixel_of config tile_v tile_u v u) /\
  forall p, p <> pixel_of config tile_v tile_u v u -> saved_same_at mem mem' p.
Proof.
  unfold thread. set (pixel := pixel_of config tile_v tile_u v u).
  intros H.
  apply bind_Ok_inv in H. destruct H as [[s e] [Hr H]].
  apply bind_Ok_inv in H. destruct H as [last [Hlast H]].
  apply bind_Ok_inv in H. destruct H as [alpha [Halpha H]].
  apply bind_Ok_inv in H. destruct H as [g [Hg H]].
  apply bind_Ok_inv in H. destruct H as [[sh st] [Hwalk H]].
  apply bind_Ok_inv in H. destruct H as [imf [Himf H]].
  apply bind_Ok_inv in H. destruct H as [ima [Hima H]].
  apply bind_Ok_inv in H. destruct H as [ilv [Hilv H]].
  inversion H; subst mem'; clear H.
  apply aset2_inv in Himf. destruct Himf as [Fs Fo].
  apply aset2_inv in Hima. destruct Hima as [As Ao].
  apply aset2_inv in Hilv. destruct Hilv as [Ls Lo].
  cbn [snd] in As.
  split.
  - split; [exact Fs|].
    exists s, e, last, alpha, g, (grads mem), sh, st.
    cbn [image_alpha image_last_valid]. repeat split; assumption.
  - intros [px py] Hp. unfold saved_same_at.
    cbn [image_feature image_alpha image_last_valid fst snd].
    assert (Hne : (py, px) <> (snd pixel, fst pixel)).
    { intros E. apply Hp. inversion E. destruct pixel; cbn in *. congruence. }
    repeat split; [apply Fo | apply Ao | apply Lo]; exact Hne.
Qed.

Lemma overwritten_then_same (mem mem1 mem' : Memory R) (tile_id : Z) (p : Z * Z) :
  pixel_overwritten conic_pdf_with_grad config feature_size inp mem mem1 tile_id p ->
  saved_same_at mem1 mem' p ->
  pixel_overwritten conic_pdf_with_grad config feature_size inp mem mem' tile_id p.
Proof.
  intros [Hf [s [e [last [alpha [g [gb [sh [st H]]]]]]]]] [Sf [Sa Sl]].
  destruct H as [H1 [H2 [H3 [H4 [H5 [H6 H7]]]]]].
  split; [congruence|].
  exists s, e, last, alpha, g, gb, sh, st. repeat split; congruence.
Qed.

Lemma same_then_overwritten (mem mem1 mem' : Memory R) (tile_id : Z) (p : Z * Z) :
  saved_same_at mem mem1 p ->
  pixel_overwritten conic_pdf_with_grad config feature_size inp mem1 mem' tile_id p ->
  pixel_overwritten conic_pdf_with_grad config feature_size inp mem mem' tile_id p.
Proof.
  intros [Sf [Sa Sl]] [Hf [s [e [last [alpha [g [gb [sh [st H]]]]]]]]].
  destruct H as [H1 [H2 [H3 [H4 [H5 [H6 H7]]]]]].
  split; [exact Hf|].
  exists s, e, last, alpha, g, gb, sh, st. repeat split; congruence.
Qed.

Lemma saved_same_at_trans (mem mem1 mem' : Memory R) (p : Z * Z) :
  saved_same_at mem mem1 p -> saved_same_at mem1 mem' p -> saved_same_at mem mem' p.
Proof.
  intros [Sf [Sa Sl]] [Sf' [Sa' Sl']]. repeat split; congruence.
Qed.

(** Tasks with distinct pixels, run one after the other. *)
Lemma threads_overwrite (tiles_wide : Z) (tasks : list (Z * Z * Z * Z)) :
  NoDup (map (fun t => let '(tile_v, tile_u, v, u) := t in
                       pixel_of config tile_v tile_u v u) tasks) ->
  forall mem mem',
  foldM (fun t => let '(tile_v, tile_u, v, u) := t in
                  thread conic_pdf_with_grad config feature_size inp tiles_wide
                    tile_v tile_u v u) tasks mem = Ok mem' ->
  (forall tile_v tile_u v u, In (tile_v, tile_u, v, u) tasks ->
     pixel_overwritten conic_pdf_with_grad config feature_size inp mem mem'
       (tile_id_of tiles_wide tile_v tile_u) (pixel_of config tile_v tile_u v u)) /\
  (forall p,
     ~ In p (map (fun t => let '(tile_v, tile_u, v, u) := t in
                           pixel_of config tile_v tile_u v u) tasks) ->
     saved_same_at mem mem' p).
Proof.
  induction tasks as [|[[[tv tu] v] u] tasks IH]; intros Hnd mem mem' H.
  - cbn in H. inversion H; subst. split; [intros ? ? ? ? []|].
    intros p _. repeat split; reflexivity.
  - cbn [map] in Hnd. apply NoDup_cons_iff in Hnd. destruct Hnd as [Hnew Hnd].
    cbn [foldM] in H. apply bind_Ok_inv in H. destruct H as [mem1 [H1 H]].
    apply thread_inv in H1. destruct H1 as [Hw Hframe].
    destruct (IH Hnd mem1 mem' H) as [IHw IHframe].
    split.
    + intros tv' tu' v' u' [E | Hin].
      * inversion E; subst. eapply overwritten_then_same; [exact Hw|].
        apply IHframe. exact Hnew.
      * eapply same_then_overwritten; [|apply IHw; exact Hin].
        apply Hframe. intros E. apply Hnew. rewrite <- E.
        apply in_map_iff. exists (tv', tu', v', u'). split; [reflexivity | exact Hin].
    + intros p Hp. cbn [map] in Hp.
      eapply saved_same_at_trans.
      * apply Hframe. intros E. apply Hp. left. now rewrite E.
      * apply IHframe. intros Hin. apply Hp. now right.
Qed.

(** Distinct tasks of the grid have distinct pixels. *)
Lemma pixel_of_exact (tiles_high tiles_wide tile_v tile_u v u : Z) :
  0 < tile_size config ->
  tiles_high * tile_size config <= I32.max_int ->
  tiles_wide * tile_size config <= I32.max_int ->
  In (tile_v, tile_u, v, u)
     (ndrange4 tiles_high tiles_wide (tile_size config) (tile_size config)) ->
  pixel_of config tile_v tile_u v u
  = (tile_u * tile_size config + u, tile_v * tile_size config + v).
Proof.
  unfold I32.max_int. intros Hts Hh Hw Hin. apply In_ndrange4 in Hin.
  unfold pixel_of.
  rewrite (mul_exact tile_u) by nia. rewrite (mul_exact tile_v) by nia.
  rewrite !add_exact by nia. reflexivity.
Qed.

Lemma grid_pixels_NoDup (tiles_high tiles_wide : Z) :
  0 < tile_size config ->
  tiles_high * tile_size config <= I32.max_int ->
  tiles_wide * tile_size config <= I32.max_int ->
  NoDup (map (fun t => let '(tile_v, tile_u, v, u) := t in
                       pixel_of config tile_v tile_u v u)
             (ndrange4 tiles_high tiles_wide (tile_size config) (tile_size config))).
Proof.
  intros Hts Hh Hw. apply NoDup_map_on; [apply ndrange4_NoDup|].
  intros [[[tv tu] v] u] [[[tv' tu'] v'] u'] Hin Hin' E.
  rewrite (pixel_of_exact tiles_high tiles_wide) in E by assumption.
  rewrite (pixel_of_exact tiles_high tiles_wide tv' tu' v' u') in E by assumption.
  apply In_ndrange4 in Hin. apply In_ndrange4 in Hin'.
  inversion E as [[Ex Ey]].
  assert (tu = tu') by nia. assert (tv = tv') by nia.
  assert (u = u') by nia. assert (v = v') by nia.
  congruence.
Qed.

End KernelFacts.

(** C9.  After a run of the kernel, at every pixel of the tile grid the saved
    state has been written over: [image_feature] holds the zero vector (the
    [accum_feature] the task initialised and never updated), [image_alpha]
    holds one minus the transmittance the reverse walk ended with, started from
    one minus the alpha saved before the run, and [image_last_valid] holds the
    value saved before the run. *)
Theorem C9_backward_overwrites_saved_state
  {R : Type} {SR : Scalar R}
  (conic_pdf_with_grad : R * R -> R * R -> R * R * R -> R * (R * R) * (R * R * R))
  (config : Config) (feature_size : nat) (inp : Inputs R) (mem mem' : Memory R) :
  0 < tile_size config ->
  fst (shape2 (image_feature mem)) <= I32.max_int ->
  snd (shape2 (image_feature mem)) <= I32.max_int ->
  _backward_kernel conic_pdf_with_grad config feature_size inp mem = Ok mem' ->
  let tiles_high := fst (shape2 (image_feature mem)) / tile_size config in
  let tiles_wide := snd (shape2 (image_feature mem)) / tile_size config in
  forall tile_v tile_u v u,
    0 <= tile_v < tiles_high -> 0 <= tile_u < tiles_wide ->
    0 <= v < tile_size config -> 0 <= u < tile_size config ->
    pixel_overwritten conic_pdf_with_grad config feature_size inp mem mem'
      (tile_id_of tiles_wide tile_v tile_u)
      (tile_u * tile_size config + u, tile_v * tile_size config + v).
Proof.
  intros Hts Hh Hw Hk tiles_high tiles_wide tv tu v u Htv Htu Hv Hu.
  unfold I32.max_int in Hh, Hw.
  unfold _backward_kernel in Hk.
  destruct (shape2 (image_feature mem)) as [h w] eqn:Es.
  cbn [fst snd] in *.
  assert (Hh0 : 0 <= h) by (unfold shape2 in Es; inversion Es; lia).
  assert (Hw0 : 0 <= w) by (unfold shape2 in Es; inversion Es; lia).
  assert (Eh : I32.floordiv h (tile_size config) = tiles_high).
  { unfold I32.floordiv, tiles_high. apply wrap_small. apply in_range_intro.
    pose proof (Z.div_pos h (tile_size config) Hh0 Hts).
    pose proof (Z.mul_div_le h (tile_size config) Hts). nia. }
  assert (Ew : I32.floordiv w (tile_size config) = tiles_wide).
  { unfold I32.floordiv, tiles_wide. apply wrap_small. apply in_range_intro.
    pose proof (Z.div_pos w (tile_size config) Hw0 Hts).
    pose proof (Z.mul_div_le w (tile_size config) Hts). nia. }
  rewrite Eh, Ew in Hk.
  assert (Bh : tiles_high * tile_size config <= I32.max_int).
  { unfold I32.max_int, tiles_high.
    pose proof (Z.mul_div_le h (tile_size config) Hts). lia. }
  assert (Bw : tiles_wide * tile_size config <= I32.max_int).
  { unfold I32.max_int, tiles_wide.
    pose proof (Z.mul_div_le w (tile_size config) Hts). lia. }
  assert (Hin : In (tv, tu, v, u)
                  (ndrange4 tiles_high tiles_wide (tile_size config)
                     (tile_size config)))
    by (apply In_ndrange4; tauto).
  pose proof (grid_pixels_NoDup config tiles_high tiles_wide Hts Bh Bw) as Hnd.
  destruct (threads_overwrite conic_pdf_with_grad config feature_size inp
              tiles_wide _ Hnd mem mem' Hk) as [Hall _].
  rewrite <- (pixel_of_exact config tiles_high tiles_wide tv tu v u Hts Bh Bw Hin).
  apply Hall. exact Hin.
Qed.

Lemma C9_backward_overwrites_saved_state_witness :
  exists mem',
    _backward_kernel (SR := QScalar) Sample.pdf Sample.config 3 Sample.inputs
      Sample.memory = Ok mem' /\
    pixel_overwritten (SR := QScalar) Sample.pdf Sample.config 3 Sample.inputs
      Sample.memory mem' 0 (1, 0) /\
    aget2 (image_alpha Sample.memory) 0 1 = Ok (1 # 2)%Q /\
    aget2 (image_alpha mem') 0 1 <> Ok (1 # 2)%Q.
Proof.
  eexists. split; [vm_compute; reflexivity|]. split; [|split].
  - apply (C9_backward_overwrites_saved_state (SR := QScalar) Sample.pdf
             Sample.config 3 Sample.inputs Sample.memory _
             ltac:(reflexivity) ltac:(vm_compute; discriminate)
             ltac:(vm_compute; discriminate) ltac:(vm_compute; reflexivity)
             0 0 0 1);
      vm_compute; intuition discriminate.
  - reflexivity.
  - vm_compute. discriminate.
Defined.

(* ------------------------------------------------------------------------- *)
(** ** The quotient of two integers as a float, and its ceiling *)

Lemma pow2_pos (k : Z) : 0 <= k -> 0 < 2 ^ k.
Proof. intros H. apply Z.pow_pos_nonneg; lia. Qed.

Lemma pow2_lt (a b : Z) : 0 <= a < b -> 2 ^ a < 2 ^ b.
Proof. intros H. apply Z.pow_lt_mono_r; lia. Qed.

(** [2 ^ ilog2 n d <= n / d], stated without fractions. *)
Lemma ilog2_lower (n d : Z) :
  0 < n -> 0 < d ->
  (0 <= Binary64.ilog2 n d -> d * 2 ^ Binary64.ilog2 n d <= n) /\
  (Binary64.ilog2 n d < 0 -> d <= n * 2 ^ (- Binary64.ilog2 n d)).
Proof.
  intros Hn Hd.
  pose proof (Z.log2_spec n Hn) as [Ln _].
  pose proof (Z.log2_spec d Hd) as [_ Ld].
  pose proof (Z.log2_nonneg n) as Nn. pose proof (Z.log2_nonneg d) as Nd.
  unfold Binary64.ilog2, Binary64.scaled.
  set (l := Z.log2 n - Z.log2 d).
  destruct (Z.leb_spec 0 (- l)) as [Hl | Hl].
  - destruct (Z.ltb_spec (n * 2 ^ (- l)) d) as [Hlt | Hge].
    + split; [lia|]. intros _.
      replace (- (l - 1)) with (1 - l) by lia.
      assert (E : 2 ^ Z.log2 n * 2 ^ (1 - l) = 2 ^ Z.succ (Z.log2 d)).
      { rewrite <- Z.pow_add_r by lia. f_equal. unfold l. lia. }
      pose proof (pow2_pos (1 - l) ltac:(lia)). nia.
    + split.
      * intros H0. replace l with 0 in * by lia. cbn in Hge. lia.
      * intros _. lia.
  - replace (- - l) with l by lia.
    destruct (Z.ltb_spec n (d * 2 ^ l)) as [Hlt | Hge].
    + split; [|lia]. intros _.
      assert (E : 2 ^ Z.succ (Z.log2 d) * 2 ^ (l - 1) = 2 ^ Z.log2 n).
      { rewrite <- Z.pow_add_r by lia. f_equal. unfold l. lia. }
      pose proof (pow2_pos (l - 1) ltac:(lia)). nia.
    + split; [|lia]. intros _. lia.
Qed.

(** Rounding to nearest stays within the integers around the quotient. *)
Lemma round_half_even_bounds (a b : Z) :
  0 <= a -> 0 < b ->
  a / b <= Binary64.round_half_even a b <= a / b + 1 /\
  (a mod b = 0 -> Binary64.round_half_even a b = a / b) /\
  (b < 2 * (a mod b) -> Binary64.round_half_even a b = a / b + 1).
Proof.
  intros Ha Hb. unfold Binary64.round_half_even.
  destruct (Z.ltb_spec (2 * (a mod b)) b) as [H1 | H1].
  - repeat split; lia.
  - destruct (Z.ltb_spec b (2 * (a mod b))) as [H2 | H2].
    + repeat split; lia.
    + destruct (Z.even (a / b)); repeat split; lia.
Qed.

(** The ceiling of [m / 2^k]. *)
Lemma ceil_between (m k K : Z) :
  0 <= k ->
  (K - 1) * 2 ^ k < m <= K * 2 ^ k ->
  Binary64.ceil {| Binary64.mant := m; Binary64.expo := - k |} = K.
Proof.
  intros Hk Hm. unfold Binary64.ceil. cbn [Binary64.mant Binary64.expo].
  pose proof (pow2_pos k Hk) as HP.
  destruct (Z.leb_spec 0 (- k)) as [H0 | H0].
  - replace k with 0 in * by lia. cbn in *. lia.
  - replace (- - k) with k by lia.
    assert (E : (- m) / 2 ^ k = - K).
    { symmetry. apply Z.div_unique with (r := - m + K * 2 ^ k); [left|]; nia. }
    rewrite E. lia.
Qed.

(** For dimensions below 2^53 and tile sizes below 2^1075, the float quotient
    has the same ceiling as the exact quotient. *)
Lemma pad_exact (t x : Z) :
  0 <= x < 2 ^ 53 -> 0 < t < 2 ^ 1075 ->
  pad t x = Ok ((x + t - 1) / t * t).
Proof.
  intros Hx Ht. unfold pad, Binary64.true_divide.
  destruct (Z.eqb_spec t 0) as [|_]; [lia|].
  destruct (Z.eqb_spec x 0) as [-> | Hx0].
  - cbn [bind]. unfold Binary64.ceil. cbn [Binary64.mant Binary64.expo].
    rewrite (Z.div_small (0 + t - 1) t) by lia. reflexivity.
  - rewrite (Z.abs_eq x), (Z.abs_eq t) by lia.
    rewrite (Z.sgn_pos x), (Z.sgn_pos t) by lia.
    destruct (ilog2_lower x t ltac:(lia) ltac:(lia)) as [Lpos Lneg].
    set (l := Binary64.ilog2 x t) in *.
    assert (Hl : l <= 52).
    { destruct (Z_le_gt_dec l 52) as [H | H]; [exact H|]. exfalso.
      pose proof (Lpos ltac:(lia)) as H1.
      pose proof (Z.pow_le_mono_r 2 53 l ltac:(lia) ltac:(lia)). nia. }
    unfold Binary64.ulp_exponent. fold l.
    set (e := Z.max (l - 52) (-1074)).
    assert (He : e <= 0) by (unfold e; lia).
    unfold Binary64.scaled.
    destruct (Z.leb_spec 0 (- e)) as [_ | H]; [|lia].
    set (k := - e) in *.
    assert (Hk : 0 <= k) by (unfold k; lia).
    pose proof (pow2_pos k Hk) as HP.
    assert (Htk : t < 2 * 2 ^ k).
    { replace (2 * 2 ^ k) with (2 ^ (k + 1))
        by (rewrite Z.pow_add_r by lia; lia).
      destruct (Z_le_gt_dec (l - 52) (-1074)) as [Hs | Hs].
      - replace k with 1074 by (unfold k, e; lia). exact (proj2 Ht).
      - assert (Ek : k + 1 = 53 - l) by (unfold k, e; lia). rewrite Ek.
        destruct (Z_le_gt_dec 0 l) as [Hl0 | Hl0].
        + pose proof (Lpos Hl0) as H1.
          assert (E : 2 ^ 53 = 2 ^ (53 - l) * 2 ^ l)
            by (rewrite <- Z.pow_add_r by lia; f_equal; lia).
          pose proof (pow2_pos l Hl0). nia.
        + pose proof (Lneg ltac:(lia)) as H1.
          assert (E : 2 ^ (53 - l) = 2 ^ 53 * 2 ^ (- l))
            by (rewrite <- Z.pow_add_r by lia; f_equal; lia).
          pose proof (pow2_pos (- l) ltac:(lia)). nia. }
    set (K := (x + t - 1) / t).
    assert (HK : (K - 1) * t < x <= K * t).
    { unfold K.
      pose proof (Z.mul_div_le (x + t - 1) t ltac:(lia)).
      pose proof (Z.mul_succ_div_gt (x + t - 1) t ltac:(lia)). nia. }
    set (p := x * 2 ^ k).
    destruct (round_half_even_bounds p t ltac:(unfold p; nia) ltac:(lia))
      as [[Rlo Rhi] [Rzero Rup]].
    set (m := Binary64.round_half_even p t) in *.
    pose proof (Z.div_mod p t ltac:(lia)) as Hdm.
    pose proof (Z.mod_pos_bound p t ltac:(lia)) as Hmod.
    assert (Hm : (K - 1) * 2 ^ k < m <= K * 2 ^ k).
    { split.
      - destruct (Z_le_gt_dec (p / t) ((K - 1) * 2 ^ k)) as [Hq | Hq]; [|lia].
        assert (Hr : t < 2 * (p mod t)) by (unfold p in *; nia).
        rewrite (Rup Hr). unfold p in *. nia.
      - destruct (Z_lt_le_dec (p / t) (K * 2 ^ k)) as [Hq | Hq]; [lia|].
        assert (Hr : p mod t = 0) by (unfold p in *; nia).
        rewrite (Rzero Hr). unfold p in *. nia. }
    assert (Ee : e = - k) by (unfold k; lia).
    destruct (Z.ltb_spec 971 e) as [H | _]; [lia|].
    destruct (Z.eqb_spec e 971) as [H | _]; [lia|].
    cbn [orb andb bind].
    replace (1 * 1 * m) with m by lia. rewrite Ee.
    rewrite (ceil_between m k K Hk Hm). reflexivity.
Qed.

(* ------------------------------------------------------------------------- *)
(** ** Padding and cropping *)

Lemma least_multiple (t x : Z) :
  0 < t ->
  let r := (x + t - 1) / t * t in
  (t | r) /\ x <= r /\ forall j, x <= j * t -> r <= j * t.
Proof.
  intros Ht r. unfold r.
  pose proof (Z.mul_div_le (x + t - 1) t Ht).
  pose proof (Z.mul_succ_div_gt (x + t - 1) t Ht).
  set (q := (x + t - 1) / t) in *. unfold Z.succ in *.
  split; [exists q; reflexivity|]. split; [lia|].
  intros j Hj.
  assert (q <= j) by nia. nia.
Qed.

Lemma slice_to_nonneg {X} (n : Z) (l : list X) :
  0 <= n -> slice_to n l = firstn (Z.to_nat n) l.
Proof.
  intros H. unfold slice_to. destruct (Z.leb_spec 0 n); [reflexivity | lia].
Qed.

Lemma aget_firstn {X} (n i : Z) (l : list X) :
  0 <= i < n -> aget (firstn (Z.to_nat n) l) i = aget l i.
Proof.
  intros H. unfold aget. destruct (Z.ltb_spec i 0); [lia|].
  rewrite nth_error_firstn.
  destruct (Nat.ltb_spec (Z.to_nat i) (Z.to_nat n)); [reflexivity | lia].
Qed.

Lemma aget_map {X Y} (f : X -> Y) (l : list X) (i : Z) :
  aget (map f l) i = result_map f (aget l i).
Proof.
  unfold aget. destruct (i <? 0); [reflexivity|].
  rewrite nth_error_map. destruct (nth_error l (Z.to_nat i)); reflexivity.
Qed.

Lemma Forall_firstn {X} (P : X -> Prop) (n : nat) (l : list X) :
  Forall P l -> Forall P (firstn n l).
Proof.
  intros H. revert n. induction H as [|x l Hx Hl IH]; intros [|n]; cbn [firstn];
    constructor; auto.
Qed.

(** Cropping an image of [H] rows of [W] pixels to [h <= H] rows of [w <= W]
    pixels. *)
Lemma crop_spec {X} (h w H W : Z) (image : list (list X)) :
  0 <= h <= H -> 0 <= w <= W ->
  length image = Z.to_nat H ->
  Forall (fun row => length row = Z.to_nat W) image ->
  length (crop h w image) = Z.to_nat h /\
  Forall (fun row => length row = Z.to_nat w) (crop h w image) /\
  forall y x, 0 <= y < h -> 0 <= x < w ->
    aget2 (crop h w image) y x = aget2 image y x.
Proof.
  intros Hh Hw Hlen Hrows. unfold crop.
  rewrite (slice_to_nonneg h) by lia.
  split; [|split].
  - rewrite length_map, length_firstn. lia.
  - apply Forall_map. apply Forall_firstn.
    eapply Forall_impl; [|exact Hrows]. cbn beta. intros row Hrow.
    rewrite (slice_to_nonneg w) by lia. rewrite length_firstn. lia.
  - intros y x Hy Hx. unfold aget2.
    rewrite aget_map, aget_firstn by lia.
    destruct (aget image y) as [row|]; cbn [result_map bind]; [|reflexivity].
    rewrite (slice_to_nonneg w) by lia. apply aget_firstn. lia.
Qed.

(** C8.  For an image dimension 0 <= x < 2^53 and a tile size
    0 < t < 2^1075, [pad] returns the least multiple of t that is at least x;
    [pad_to_tile] does so for both dimensions; and [render_gaussians], given a
    rasterizer that returns an image of the size it is asked for, rasterizes at
    the padded size with the given tile size and returns the first h rows and
    first w columns of that image. *)
Theorem C8_pad_to_tile_and_crop
  (Gaussians2D Projected Depth Feature Overlap Ranges Pixel : Type)
  (contiguous : Gaussians2D -> Gaussians2D)
  (project_gaussians2d : Gaussians2D -> Projected)
  (depth : Gaussians2D -> Depth)
  (feature : Gaussians2D -> Feature)
  (map_to_tiles : Projected -> Depth -> Z * Z -> Z -> Overlap * Ranges)
  (rasterize : Projected -> Feature -> Ranges -> Overlap -> Z * Z -> Config ->
               list (list Pixel))
  (gaussians : Gaussians2D) (w h t : Z) :
  0 <= w < 2 ^ 53 -> 0 <= h < 2 ^ 53 -> 0 < t < 2 ^ 1075 ->
  (forall g f r o W H c,
     length (rasterize g f r o (W, H) c) = Z.to_nat H /\
     Forall (fun row => length row = Z.to_nat W) (rasterize g f r o (W, H) c)) ->
  let lm := fun x => (x + t - 1) / t * t in
  (forall x, 0 <= x < 2 ^ 53 ->
     pad t x = Ok (lm x) /\
     (t | lm x) /\ x <= lm x /\ forall j, x <= j * t -> lm x <= j * t) /\
  pad_to_tile (w, h) t = Ok (lm w, lm h) /\
  let g := contiguous gaussians in
  let tiles := map_to_tiles (project_gaussians2d g) (depth g) (lm w, lm h) t in
  let image := rasterize (project_gaussians2d g) (feature g) (snd tiles)
                 (fst tiles) (lm w, lm h) (Config_init (Some t) None None None) in
  render_gaussians Gaussians2D Projected Depth Feature Overlap Ranges Pixel
    contiguous project_gaussians2d depth feature map_to_tiles rasterize
    gaussians (w, h) t = Ok (crop h w image) /\
  length (crop h w image) = Z.to_nat h /\
  Forall (fun row => length row = Z.to_nat w) (crop h w image) /\
  forall y x, 0 <= y < h -> 0 <= x < w ->
    aget2 (crop h w image) y x = aget2 image y x.
Proof.
  intros Hw Hh Ht Hshape lm.
  assert (Hpad : forall x, 0 <= x < 2 ^ 53 -> pad t x = Ok (lm x))
    by (intros x Hx; now apply pad_exact).
  assert (Hpt : pad_to_tile (w, h) t = Ok (lm w, lm h)).
  { unfold pad_to_tile. cbn [fst snd]. rewrite (Hpad w Hw), (Hpad h Hh).
    reflexivity. }
  split; [|split; [exact Hpt|]].
  - intros x Hx. split; [now apply Hpad|].
    apply (least_multiple t x). lia.
  - intros g tiles image. split.
    + unfold render_gaussians. rewrite Hpt. cbn [bind].
      fold g. fold tiles. destruct tiles as [o r] eqn:E. reflexivity.
    + destruct (Hshape (project_gaussians2d g) (feature g) (snd tiles) (fst tiles)
                  (lm w) (lm h) (Config_init (Some t) None None None))
        as [Hlen Hrows].
      pose proof (least_multiple t w ltac:(lia)) as Lw. cbv zeta in Lw.
      pose proof (least_multiple t h ltac:(lia)) as Lh. cbv zeta in Lh.
      apply (crop_spec h w (lm h) (lm w) image); try assumption; unfold lm; lia.
Qed.

Lemma Sample_rasterizer_shape (W H : Z) :
  length (repeat (repeat 0 (Z.to_nat W)) (Z.to_nat H)) = Z.to_nat H /\
  Forall (fun row => length row = Z.to_nat W)
         (repeat (repeat 0 (Z.to_nat W)) (Z.to_nat H)).
Proof.
  split; [apply repeat_length|].
  apply Forall_forall. intros row Hrow. apply repeat_spec in Hrow. subst.
  apply repeat_length.
Qed.

Lemma C8_pad_to_tile_and_crop_witness :
  pad_to_tile (100, 50) 16 = Ok (112, 64) /\
  exists image,
    render_gaussians unit unit unit unit unit unit Z
      (fun g => g) (fun g => g) (fun g => g) (fun g => g)
      (fun _ _ _ _ => (tt, tt))
      (fun _ _ _ _ size _ => repeat (repeat 0 (Z.to_nat (fst size)))
                                    (Z.to_nat (snd size)))
      tt (100, 50) 16 = Ok image /\
    length image = 50%nat /\
    Forall (fun row => length row = 100%nat) image.
Proof.
  destruct (C8_pad_to_tile_and_crop unit unit unit unit unit unit Z
              (fun g => g) (fun g => g) (fun g => g) (fun g => g)
              (fun _ _ _ _ => (tt, tt))
              (fun _ _ _ _ size _ => repeat (repeat 0 (Z.to_nat (fst size)))
                                            (Z.to_nat (snd size)))
              tt 100 50 16)
    as [_ [Hpt [Hr [Hlen [Hrows _]]]]];
    try (split; [lia | reflexivity]).
  - intros g f r o W H c. apply Sample_rasterizer_shape.
  - split; [exact Hpt|]. eexists. split; [exact Hr|]. split; [exact Hlen | exact Hrows].
Defined.

(** A dimension of 2^53 + 1 with the default tile size: the float quotient
    rounds down to 2^49, and the padded dimension, 2^53, is less than the
    dimension asked for.  The same with a tile size of 1; and a tile size of
    2^1075 pads the dimension 1 to 0, the quotient rounding to 0.0. *)
Lemma C8_counterexample :
  0 <= 9007199254740993 /\ 0 < 16 /\
  pad 16 9007199254740993 = Ok 9007199254740992 /\
  9007199254740992 < 9007199254740993 /\
  pad 1 9007199254740993 = Ok 9007199254740992 /\
  pad_to_tile (9007199254740993, 16) 16 = Ok (9007199254740992, 16) /\
  pad (2 ^ 1075) 1 = Ok 0.
Proof.
  repeat split; try lia; vm_compute; reflexivity.
Qed.

(* ========================================================================= *)
(** * Further properties of the backward kernel *)

Lemma foldM_rel {A S} (Rel : S -> S -> Prop) (body : A -> S -> result S)
  (xs : list A) :
  (forall s, Rel s s) ->
  (forall a b c, Rel a b -> Rel b c -> Rel a c) ->
  (forall x s s', In x xs -> body x s = Ok s' -> Rel s s') ->
  forall s s', foldM body xs s = Ok s' -> Rel s s'.
Proof.
  intros Hrefl Htrans. induction xs as [|x xs IH]; intros Hbody s s' H.
  - cbn in H. inversion H; subst. apply Hrefl.
  - cbn [foldM] in H. apply bind_Ok_inv in H. destruct H as [s1 [H1 H]].
    apply Htrans with s1.
    + apply (Hbody x); [now left | exact H1].
    + apply IH; [|exact H]. intros y a b Hy. apply Hbody. now right.
Qed.

Lemma grads_frame_refl {R} (listed : list Z) (g : Grads R) : grads_frame listed g g.
Proof. repeat split; reflexivity. Qed.

Lemma grads_frame_trans {R} (listed : list Z) (a b c : Grads R) :
  grads_frame listed a b -> grads_frame listed b c -> grads_frame listed a c.
Proof.
  intros [L1 [L2 H]] [L1' [L2' H']]. split; [congruence|]. split; [congruence|].
  intros j Hj. destruct (H j Hj) as [E1 E2]. destruct (H' j Hj) as [E1' E2'].
  split; congruence.
Qed.

Lemma aget_In {X} (a : list X) (i : Z) (x : X) : aget a i = Ok x -> In x a.
Proof.
  intros H. apply aget_Ok_iff in H. destruct H as [_ H].
  eapply nth_error_In; eauto.
Qed.

Section GradientFrame.
Context {R : Type} {SR : Scalar R}.
Variable conic_pdf_with_grad :
  R * R -> R * R -> R * R * R -> R * (R * R) * (R * R * R).
Variable config : Config.
Variable feature_size : nat.
Variable inp : Inputs R.

Lemma accumulate_frame (point_index : Z) (x : vec R) (y : Gaussian2D R)
  (g g' : Grads R) :
  accumulate inp point_index x y g = Ok g' ->
  grads_frame (overlap_to_point inp) g g'.
Proof.
  unfold accumulate. intros H.
  apply bind_Ok_inv in H. destruct H as [po [Hpo H]].
  apply bind_Ok_inv in H. destruct H as [gpf [Hf H]].
  apply bind_Ok_inv in H. destruct H as [gp [Hp H]].
  inversion H; subst g'; clear H.
  unfold add_at_feature in Hf.
  apply bind_Ok_inv in Hf. destruct Hf as [old [_ Hf]].
  apply bind_Ok_inv in Hf. destruct Hf as [new [_ Hf]].
  apply aset_inv in Hf. destruct Hf as [Bf ->].
  unfold add_at_point in Hp.
  apply bind_Ok_inv in Hp. destruct Hp as [oldp [_ Hp]].
  apply aset_inv in Hp. destruct Hp as [Bp ->].
  cbn [grad_points grad_point_features].
  split; [apply update_length|]. split; [apply update_length|].
  intros j Hj.
  assert (Hne : po <> j) by (intros ->; apply Hj; eapply aget_In; eauto).
  split; apply aget_update_other; lia.
Qed.

Lemma blend_entry_frame (pixel : Z * Z) (grad : vec R) (point_index : Z)
  (pt : Gaussian2D R) (feature : vec R) (st st' : Walk R) :
  blend_entry conic_pdf_with_grad config inp pixel grad point_index pt feature st
    = Ok st' ->
  grads_frame (overlap_to_point inp) (walk_grads st) (walk_grads st').
Proof.
  unfold blend_entry, G2D_unpack.
  destruct (conic_pdf_with_grad _ _ _) as [[ga dm] dc].
  destruct (sltb _ _).
  - intros H. inversion H; subst. apply grads_frame_refl.
  - intros H. apply bind_Ok_inv in H. destruct H as [[[[a T] w] ag] [_ H]].
    apply bind_Ok_inv in H. destruct H as [g [Hacc H]].
    inversion H; subst st'. cbn [walk_grads].
    eapply accumulate_frame; eauto.
Qed.

Lemma process_entry_frame (pixel : Z * Z) (last : Z) (grad : vec R)
  (end_offset group_offset_base : Z) (sh : Shared R) (i : Z) (st st' : Walk R) :
  process_entry conic_pdf_with_grad config inp pixel last grad end_offset
    group_offset_base sh i st = Ok st' ->
  grads_frame (overlap_to_point inp) (walk_grads st) (walk_grads st').
Proof.
  unfold process_entry. destruct (_ >=? _).
  - intros H. inversion H; subst. apply grads_frame_refl.
  - intros H. apply bind_Ok_inv in H. destruct H as [pt [_ H]].
    apply bind_Ok_inv in H. destruct H as [ft [_ H]].
    eapply blend_entry_frame; eauto.
Qed.

Lemma pixel_walk_frame (pixel : Z * Z) (last : Z) (grad : vec R)
  (start_offset end_offset : Z) (st : Walk R) (sh' : Shared R) (st' : Walk R) :
  pixel_walk conic_pdf_with_grad config inp pixel last grad start_offset
    end_offset st = Ok (sh', st') ->
  grads_frame (overlap_to_point inp) (walk_grads st) (walk_grads st').
Proof.
  unfold pixel_walk. intros H.
  apply (foldM_rel
           (fun a b : Shared R * Walk R =>
              grads_frame (overlap_to_point inp) (walk_grads (snd a))
                (walk_grads (snd b)))) in H; [exact H | | |].
  - intros s. apply grads_frame_refl.
  - intros a b c. apply grads_frame_trans.
  - intros g [sh0 s] [sh1 s'] _ Hg. unfold point_group in Hg. cbn [fst snd] in *.
    apply bind_Ok_inv in Hg. destruct Hg as [sh [_ Hg]].
    apply bind_Ok_inv in Hg. destruct Hg as [w [Hw Hg]].
    inversion Hg; subst sh1 s'; clear Hg.
    apply (foldM_rel
             (fun a b : Walk R =>
                grads_frame (overlap_to_point inp) (walk_grads a) (walk_grads b)))
      in Hw; [exact Hw | | |].
    + intros a. apply grads_frame_refl.
    + intros a b c. apply grads_frame_trans.
    + intros i a b _. apply process_entry_frame.
Qed.

Lemma thread_frame (tiles_wide tile_v tile_u v u : Z) (mem mem' : Memory R) :
  thread conic_pdf_with_grad config feature_size inp tiles_wide tile_v tile_u v u
    mem = Ok mem' ->
  grads_frame (overlap_to_point inp) (grads mem) (grads mem').
Proof.
  unfold thread. intros H.
  apply bind_Ok_inv in H. destruct H as [[s e] [_ H]].
  apply bind_Ok_inv in H. destruct H as [last [_ H]].
  apply bind_Ok_inv in H. destruct H as [alpha [_ H]].
  apply bind_Ok_inv in H. destruct H as [g [_ H]].
  apply bind_Ok_inv in H. destruct H as [[sh st] [Hwalk H]].
  apply bind_Ok_inv in H. destruct H as [imf [_ H]].
  apply bind_Ok_inv in H. destruct H as [ima [_ H]].
  apply bind_Ok_inv in H. destruct H as [ilv [_ H]].
  inversion H; subst mem'; clear H. cbn [grads snd].
  apply pixel_walk_frame in Hwalk. exact Hwalk.
Qed.

(** X1.  After a run of the kernel the two gradient buffers have the sizes
    they had, and the entries of every primitive that [overlap_to_point] does
    not name hold what they held: a primitive in no tile's list receives no
    gradient. *)
Theorem kernel_leaves_unlisted_gradients (mem mem' : Memory R) :
  _backward_kernel conic_pdf_with_grad config feature_size inp mem = Ok mem' ->
  length (grad_points (grads mem')) = length (grad_points (grads mem)) /\
  length (grad_point_features (grads mem'))
    = length (grad_point_features (grads mem)) /\
  forall j, ~ In j (overlap_to_point inp) ->
    aget (grad_points (grads mem')) j = aget (grad_points (grads mem)) j /\
    aget (grad_point_features (grads mem')) j
      = aget (grad_point_features (grads mem)) j.
Proof.
  unfold _backward_kernel. destruct (shape2 (image_feature mem)) as [h w].
  intros H.
  apply (foldM_rel
           (fun a b : Memory R =>
              grads_frame (overlap_to_point inp) (grads a) (grads b))) in H;
    [exact H | | |].
  - intros s. apply grads_frame_refl.
  - intros a b c. apply grads_frame_trans.
  - intros [[[tv tu] v] u] a b _. apply thread_frame.
Qed.

End GradientFrame.

Section WalkEdges.
Context {R : Type} {SR : Scalar R}.
Variable conic_pdf_with_grad :
  R * R -> R * R -> R * R * R -> R * (R * R) * (R * R * R).
Variable config : Config.
Local Open Scope scalar_scope.

Lemma num_point_groups_empty (start_offset end_offset : Z) :
  0 < tile_size config ->
  tile_area config <= I32.max_int ->
  0 <= end_offset <= start_offset ->
  start_offset <= I32.max_int ->
  num_point_groups config start_offset end_offset <= 0.
Proof.
  unfold I32.max_int. intros Hts HA Hr Hs.
  pose proof (tile_area_pos config Hts) as HA0.
  unfold num_point_groups.
  rewrite sub_exact by lia. rewrite add_exact by lia.
  set (A := tile_area config) in *.
  assert (Hq : -2147483648 <= (end_offset - start_offset + (A - 1)) / A <= 0).
  { split.
    - apply Z.div_le_lower_bound; nia.
    - assert ((end_offset - start_offset + (A - 1)) / A < 1); [|lia].
      apply Z.div_lt_upper_bound; lia. }
  unfold I32.floordiv. rewrite wrap_small by (apply in_range_intro; lia). lia.
Qed.

(** X2.  A tile whose range is empty (or reversed) is walked without loading
    or processing anything: the walk returns the registers and the gradient
    buffers it was given, and the task of a pixel of such a tile leaves the
    gradient buffers as they were and stores 1 - (1 - alpha) as the pixel's
    alpha. *)
Theorem empty_range_is_not_walked (start_offset end_offset : Z) :
  0 < tile_size config ->
  tile_area config <= I32.max_int ->
  0 <= end_offset <= start_offset ->
  start_offset <= I32.max_int ->
  (forall (inp : Inputs R) pixel last_point_idx grad st,
     pixel_walk conic_pdf_with_grad config inp pixel last_point_idx grad
       start_offset end_offset st = Ok (shared_init config, st)) /\
  (forall feature_size (inp : Inputs R) tiles_wide tile_v tile_u v u mem mem',
     aget (tile_overlap_ranges inp) (tile_id_of tiles_wide tile_v tile_u)
       = Ok (start_offset, end_offset) ->
     thread conic_pdf_with_grad config feature_size inp tiles_wide
       tile_v tile_u v u mem = Ok mem' ->
     grads mem' = grads mem /\
     exists accumulated_alpha,
       aget2 (image_alpha mem) (snd (pixel_of config tile_v tile_u v u))
         (fst (pixel_of config tile_v tile_u v u)) = Ok accumulated_alpha /\
       aget2 (image_alpha mem') (snd (pixel_of config tile_v tile_u v u))
         (fst (pixel_of config tile_v tile_u v u))
       = Ok (lit 1 -! (lit 1 -! accumulated_alpha))).
Proof.
  intros Hts HA Hr Hs.
  assert (Hwalk : forall (inp : Inputs R) pixel last grad st,
             pixel_walk conic_pdf_with_grad config inp pixel last grad
               start_offset end_offset st = Ok (shared_init config, st)).
  { intros. unfold pixel_walk.
    rewrite range_nonpos by (now apply num_point_groups_empty). reflexivity. }
  split; [exact Hwalk|].
  intros F inp tw tv tu v u mem mem' Hrange H.
  unfold thread in H. rewrite Hrange in H. cbn [bind] in H.
  apply bind_Ok_inv in H. destruct H as [last [_ H]].
  apply bind_Ok_inv in H. destruct H as [alpha [Halpha H]].
  apply bind_Ok_inv in H. destruct H as [g [_ H]].
  rewrite Hwalk in H. cbn [bind snd T_i walk_grads] in H.
  apply bind_Ok_inv in H. destruct H as [imf [_ H]].
  apply bind_Ok_inv in H. destruct H as [ima [Hima H]].
  apply bind_Ok_inv in H. destruct H as [ilv [_ H]].
  inversion H; subst mem'; clear H. cbn [grads image_alpha].
  split; [reflexivity|]. exists alpha. split; [exact Halpha|].
  apply aset2_inv in Hima. apply Hima.
Qed.

(** X3.  When the pixel's [last_valid] is at or below the start of the tile's
    range, the walk loads every page and processes no entry: it returns the
    registers and the gradient buffers it was given. *)
Theorem nothing_valid_nothing_changes
  (inp : Inputs R) (pixel : Z * Z) (last_point_idx : Z) (grad : vec R)
  (start_offset end_offset : Z) (st : Walk R) :
  0 < tile_size config ->
  tile_area config <= I32.max_int ->
  0 <= start_offset <= end_offset ->
  end_offset <= I32.max_int ->
  end_offset - start_offset + tile_area config - 1 <= I32.max_int ->
  entries_valid inp end_offset ->
  last_point_idx <= start_offset ->
  exists sh,
    pixel_walk conic_pdf_with_grad config inp pixel last_point_idx grad
      start_offset end_offset st = Ok (sh, st).
Proof.
  intros Hts HA Hr He Hc Hv Hlast.
  pose proof (pixel_walk_straight conic_pdf_with_grad config inp pixel
                last_point_idx grad start_offset end_offset Hts HA Hr He Hc Hv st)
    as Hw.
  assert (Hs : straight_walk conic_pdf_with_grad config inp pixel last_point_idx
                 grad start_offset end_offset st = Ok st).
  { unfold straight_walk.
    assert (Hall : forall k, In k (descending start_offset end_offset) ->
                             last_point_idx <= k)
      by (intros k Hk; apply In_descending in Hk; lia).
    induction (descending start_offset end_offset) as [|k l IH];
      [reflexivity|].
    cbn [foldM]. unfold direct_entry at 1.
    destruct (Z.geb_spec k last_point_idx) as [_ | Hlt].
    - cbn [bind]. apply IH. intros x Hx. apply Hall. now right.
    - specialize (Hall k (or_introl eq_refl)). lia. }
  rewrite Hs in Hw.
  destruct (pixel_walk _ _ _ _ _ _ _ _ _) as [[sh st1] | e]; cbn in Hw;
    [|discriminate].
  inversion Hw; subst. now exists sh.
Qed.

End WalkEdges.

Lemma ndrange4_empty (A B C D : Z) :
  A <= 0 \/ B <= 0 \/ C <= 0 \/ D <= 0 -> ndrange4 A B C D = [].
Proof.
  intros H. destruct (ndrange4 A B C D) as [|[[[a b] c] d] l] eqn:E; [reflexivity|].
  assert (Hin : In (a, b, c, d) (ndrange4 A B C D)) by (rewrite E; now left).
  apply In_ndrange4 in Hin. lia.
Qed.

Section KernelGrid.
Context {R : Type} {SR : Scalar R}.
Variable conic_pdf_with_grad :
  R * R -> R * R -> R * R * R -> R * (R * R) * (R * R * R).
Variable config : Config.
Variable feature_size : nat.
Variable inp : Inputs R.

(** The kernel's grid: the tile counts are exact quotients, and every task's
    pixel is written by that task only. *)
Lemma kernel_grid (mem mem' : Memory R) :
  0 < tile_size config ->
  fst (shape2 (image_feature mem)) <= I32.max_int ->
  snd (shape2 (image_feature mem)) <= I32.max_int ->
  _backward_kernel conic_pdf_with_grad config feature_size inp mem = Ok mem' ->
  let tiles_high := fst (shape2 (image_feature mem)) / tile_size config in
  let tiles_wide := snd (shape2 (image_feature mem)) / tile_size config in
  tiles_high * tile_size config <= I32.max_int /\
  tiles_wide * tile_size config <= I32.max_int /\
  foldM (fun t => let '(tile_v, tile_u, v, u) := t in
                  thread conic_pdf_with_grad config feature_size inp tiles_wide
                    tile_v tile_u v u)
        (ndrange4 tiles_high tiles_wide (tile_size config) (tile_size config))
        mem = Ok mem'.
Proof.
  intros Hts Hh Hw Hk tiles_high tiles_wide.
  unfold I32.max_int in *. unfold _backward_kernel in Hk.
  destruct (shape2 (image_feature mem)) as [h w] eqn:Es.
  cbn [fst snd] in *.
  assert (Hh0 : 0 <= h) by (unfold shape2 in Es; inversion Es; lia).
  assert (Hw0 : 0 <= w) by (unfold shape2 in Es; inversion Es; lia).
  pose proof (Z.div_pos h (tile_size config) Hh0 Hts).
  pose proof (Z.mul_div_le h (tile_size config) Hts).
  pose proof (Z.div_pos w (tile_size config) Hw0 Hts).
  pose proof (Z.mul_div_le w (tile_size config) Hts).
  assert (Eh : I32.floordiv h (tile_size config) = tiles_high)
    by (unfold I32.floordiv, tiles_high; apply wrap_small, in_range_intro; nia).
  assert (Ew : I32.floordiv w (tile_size config) = tiles_wide)
    by (unfold I32.floordiv, tiles_wide; apply wrap_small, in_range_intro; nia).
  rewrite Eh, Ew in Hk.
  split; [unfold tiles_high; lia|]. split; [unfold tiles_wide; lia|]. exact Hk.
Qed.

(** X4.  The kernel runs one task per pixel of the whole tiles only: a pixel
    to the right of or below the last whole tile keeps its saved feature,
    alpha and [last_valid], and an image lower or narrower than one tile is
    returned as it was given, gradient buffers included. *)
Theorem kernel_covers_whole_tiles_only (mem mem' : Memory R) :
  0 < tile_size config ->
  fst (shape2 (image_feature mem)) <= I32.max_int ->
  snd (shape2 (image_feature mem)) <= I32.max_int ->
  _backward_kernel conic_pdf_with_grad config feature_size inp mem = Ok mem' ->
  let tiles_high := fst (shape2 (image_feature mem)) / tile_size config in
  let tiles_wide := snd (shape2 (image_feature mem)) / tile_size config in
  (forall x y,
     tiles_wide * tile_size config <= x \/ tiles_high * tile_size config <= y ->
     saved_same_at mem mem' (x, y)) /\
  (fst (shape2 (image_feature mem)) < tile_size config \/
   snd (shape2 (image_feature mem)) < tile_size config -> mem' = mem).
Proof.
  intros Hts Hh Hw Hk tiles_high tiles_wide.
  destruct (kernel_grid mem mem' Hts Hh Hw Hk) as [Bh [Bw Hf]].
  fold tiles_high in Bh, Hf. fold tiles_wide in Bw, Hf.
  split.
  - intros x y Hout.
    pose proof (grid_pixels_NoDup config tiles_high tiles_wide Hts Bh Bw) as Hnd.
    destruct (threads_overwrite conic_pdf_with_grad config feature_size inp
                tiles_wide _ Hnd mem mem' Hf) as [_ Hframe].
    apply Hframe. intros Hin. apply in_map_iff in Hin.
    destruct Hin as [[[[tv tu] v] u] [E Ht]].
    rewrite (pixel_of_exact config tiles_high tiles_wide tv tu v u Hts Bh Bw Ht)
      in E.
    apply In_ndrange4 in Ht. inversion E; subst. nia.
  - intros Hsmall.
    assert (Hz : tiles_high <= 0 \/ tiles_wide <= 0).
    { unfold tiles_high, tiles_wide. destruct Hsmall as [Hs | Hs].
      - left. destruct (shape2 (image_feature mem)) as [h w] eqn:Es.
        cbn [fst snd] in *.
        assert (0 <= h) by (unfold shape2 in Es; inversion Es; lia).
        rewrite Z.div_small by lia. lia.
      - right. destruct (shape2 (image_feature mem)) as [h w] eqn:Es.
        cbn [fst snd] in *.
        assert (0 <= w) by (unfold shape2 in Es; inversion Es; lia).
        rewrite Z.div_small by lia. lia. }
    rewrite ndrange4_empty in Hf by tauto.
    cbn in Hf. now inversion Hf.
Qed.

End KernelGrid.

(* ------------------------------------------------------------------------- *)
(** ** The transmittance along the walk, over the rationals *)

Section Transmittance.
Variable conic_pdf_with_grad :
  Q * Q -> Q * Q -> Q * Q * Q -> Q * (Q * Q) * (Q * Q * Q).
Variable config : Config.
Hypothesis Hthr : (0 <= alpha_threshold config)%Q.
Hypothesis Hclamp : (0 <= clamp_max_alpha config < 1)%Q.

Lemma undivide_grows (alpha T : Q) :
  (0 <= alpha)%Q -> (0 <= T)%Q ->
  (T <= T / (1 - Qmin alpha (clamp_max_alpha config)))%Q.
Proof.
  intros Ha HT.
  pose proof (Q.le_min_r alpha (clamp_max_alpha config)) as Hr.
  assert (Hm : (0 <= Qmin alpha (clamp_max_alpha config))%Q)
    by (apply Q.min_glb; [exact Ha | apply Hclamp]).
  apply Qle_shift_div_l; [lra|]. nra.
Qed.

Lemma process_entry_T_grows (inp : Inputs Q) (pixel : Z * Z) (last : Z)
  (grad : vec Q) (end_offset group_offset_base : Z) (sh : Shared Q) (i : Z)
  (st st' : Walk Q) :
  process_entry (SR := QScalar) conic_pdf_with_grad config inp pixel last grad
    end_offset group_offset_base sh i st = Ok st' ->
  (0 <= T_i st)%Q -> (T_i st <= T_i st')%Q.
Proof.
  unfold process_entry. destruct (_ >=? _).
  { intros H _. inversion H; subst. lra. }
  intros H HT.
  apply bind_Ok_inv in H. destruct H as [pt [_ H]].
  apply bind_Ok_inv in H. destruct H as [ft [_ H]].
  unfold blend_entry, G2D_unpack in H.
  destruct (conic_pdf_with_grad _ _ _) as [[ga dm] dc].
  destruct (sltb _ _) eqn:Et.
  { inversion H; subst. lra. }
  assert (Ha : (0 <= g_alpha pt * ga)%Q).
  { cbn [sltb smul lit QScalar QScalar_with] in Et. unfold Qltb in Et.
    apply negb_false_iff in Et. apply Qle_bool_iff in Et. lra. }
  apply bind_Ok_inv in H. destruct H as [[[[a T] w] ag] [Hb H]].
  apply bind_Ok_inv in H. destruct H as [g [_ H]].
  inversion H; subst st'; clear H. cbn [T_i].
  unfold blend_update in Hb.
  apply bind_Ok_inv in Hb. destruct Hb as [d [_ Hb]].
  apply bind_Ok_inv in Hb. destruct Hb as [agf [_ Hb]].
  apply bind_Ok_inv in Hb. destruct Hb as [w' [_ Hb]].
  inversion Hb; subst; clear Hb.
  cbn [sdiv ssub smul smin lit QScalar QScalar_with].
  apply undivide_grows; assumption.
Qed.

(** X5.  With 0 <= alpha_threshold and 0 <= clamp_max_alpha < 1, over the
    rationals, the running transmittance never decreases along the reverse
    walk: started from a transmittance T >= 0, the walk ends with a
    transmittance of at least T. *)
Theorem transmittance_never_decreases (inp : Inputs Q) (pixel : Z * Z)
  (last_point_idx : Z) (grad : vec Q) (start_offset end_offset : Z)
  (st : Walk Q) (sh' : Shared Q) (st' : Walk Q) :
  pixel_walk (SR := QScalar) conic_pdf_with_grad config inp pixel last_point_idx
    grad start_offset end_offset st = Ok (sh', st') ->
  (0 <= T_i st)%Q ->
  (T_i st <= T_i st')%Q.
Proof.
  unfold pixel_walk. intros H HT.
  refine (foldM_rel
            (fun a b : Shared Q * Walk Q =>
               (0 <= T_i (snd a))%Q -> (T_i (snd a) <= T_i (snd b))%Q)
            _ _ _ _ _ (shared_init config, st) (sh', st') H HT).
  - intros s _. lra.
  - intros a b c Hab Hbc Ha. specialize (Hab Ha).
    assert (Hb : (0 <= T_i (snd b))%Q) by lra. specialize (Hbc Hb). lra.
  - intros g [sh0 s] [sh1 s'] _ Hg. unfold point_group in Hg. cbn [fst snd] in *.
    apply bind_Ok_inv in Hg. destruct Hg as [sh [_ Hg]].
    apply bind_Ok_inv in Hg. destruct Hg as [w [Hw Hg]].
    inversion Hg; subst sh1 s'; clear Hg.
    refine (foldM_rel
              (fun a b : Walk Q => (0 <= T_i a)%Q -> (T_i a <= T_i b)%Q)
              _ _ _ _ _ s w Hw).
    + intros a _. lra.
    + intros a b c Hab Hbc Ha. specialize (Hab Ha).
      assert (Hb : (0 <= T_i b)%Q) by lra. specialize (Hbc Hb). lra.
    + intros i a b _. apply process_entry_T_grows.
Qed.

End Transmittance.

(* ========================================================================= *)
(** * Further properties of [pad_to_tile] and [render_gaussians] *)

(** X6.  Within the range where the float quotient is exact enough, [pad] adds
    less than one tile, returns a multiple of the tile size unchanged, and
    padding a padded dimension again changes nothing. *)
Theorem pad_adds_less_than_a_tile (t x : Z) :
  0 <= x < 2 ^ 53 -> 0 < t < 2 ^ 1075 ->
  exists y,
    pad t x = Ok y /\
    x <= y < x + t /\
    ((t | x) -> y = x) /\
    (y < 2 ^ 53 -> pad t y = Ok y).
Proof.
  intros Hx Ht. exists ((x + t - 1) / t * t).
  pose proof (Z.mul_div_le (x + t - 1) t ltac:(lia)) as H1.
  pose proof (Z.mul_succ_div_gt (x + t - 1) t ltac:(lia)) as H2.
  unfold Z.succ in H2.
  set (q := (x + t - 1) / t) in *.
  split; [now apply pad_exact|]. split; [lia|]. split.
  - intros [k Hk]. assert (E : q = k) by nia. rewrite E. lia.
  - intros Hy. rewrite pad_exact by lia.
    replace ((q * t + t - 1) / t) with q; [reflexivity|].
    apply Z.div_unique with (r := t - 1); [left; lia | nia].
Qed.

Lemma pad_adds_less_than_a_tile_witness :
  exists y, pad 16 100 = Ok y /\ 100 <= y < 100 + 16 /\ pad 16 y = Ok y.
Proof.
  destruct (pad_adds_less_than_a_tile 16 100) as [y [Hy [Hb [_ Hi]]]];
    try (split; [lia | reflexivity]).
  exists y. split; [exact Hy|]. split; [exact Hb|]. apply Hi.
  apply Z.lt_trans with (100 + 16); [lia | reflexivity].
Defined.

(** X7.  Within the same range, [pad] is monotone: a larger dimension is never
    padded to a smaller one. *)
Theorem pad_is_monotone (t x x' : Z) :
  0 <= x -> x <= x' -> x' < 2 ^ 53 -> 0 < t < 2 ^ 1075 ->
  exists y y', pad t x = Ok y /\ pad t x' = Ok y' /\ y <= y'.
Proof.
  intros Hx Hxx Hx' Ht.
  exists ((x + t - 1) / t * t), ((x' + t - 1) / t * t).
  split; [apply pad_exact; lia|]. split; [apply pad_exact; lia|].
  apply Z.mul_le_mono_nonneg_r; [lia|].
  apply Z.div_le_mono; lia.
Qed.

Lemma pad_is_monotone_witness :
  exists y y', pad 16 17 = Ok y /\ pad 16 40 = Ok y' /\ y <= y'.
Proof.
  apply (pad_is_monotone 16 17 40);
    [lia | lia | reflexivity | split; [lia | reflexivity]].
Defined.

(** [n / d < 2 ^ (ilog2 n d + 1)], stated without fractions. *)
Lemma ilog2_upper (n d : Z) :
  0 < n -> 0 < d ->
  (0 <= Binary64.ilog2 n d + 1 -> n < d * 2 ^ (Binary64.ilog2 n d + 1)) /\
  (Binary64.ilog2 n d + 1 < 0 -> n * 2 ^ (- (Binary64.ilog2 n d + 1)) < d).
Proof.
  intros Hn Hd.
  pose proof (Z.log2_spec n Hn) as [_ Ln].
  pose proof (Z.log2_spec d Hd) as [Ld _].
  pose proof (Z.log2_nonneg n) as Nn. pose proof (Z.log2_nonneg d) as Nd.
  unfold Binary64.ilog2, Binary64.scaled.
  set (l := Z.log2 n - Z.log2 d).
  destruct (Z.leb_spec 0 (- l)) as [Hl | Hl].
  - destruct (Z.ltb_spec (n * 2 ^ (- l)) d) as [Hlt | Hge].
    + replace (l - 1 + 1) with l by lia. split.
      * intros H0. replace l with 0 in * by lia. cbn in Hlt |- *. lia.
      * intros _. exact Hlt.
    + split.
      * intros H0.
        assert (E : 2 ^ Z.succ (Z.log2 n) = 2 ^ Z.log2 d * 2 ^ (l + 1)).
        { rewrite <- Z.pow_add_r by lia. f_equal. unfold l. lia. }
        pose proof (pow2_pos (l + 1) ltac:(lia)). nia.
      * intros Hneg.
        assert (E : 2 ^ Z.succ (Z.log2 n) * 2 ^ (- (l + 1)) = 2 ^ Z.log2 d).
        { rewrite <- Z.pow_add_r by lia. f_equal. unfold l. lia. }
        pose proof (pow2_pos (- (l + 1)) ltac:(lia)). nia.
  - replace (- - l) with l by lia.
    destruct (Z.ltb_spec n (d * 2 ^ l)) as [Hlt | Hge].
    + replace (l - 1 + 1) with l by lia. split; [|lia]. intros _. exact Hlt.
    + split; [|lia]. intros _.
      assert (E : 2 ^ Z.succ (Z.log2 n) = 2 ^ Z.log2 d * 2 ^ (l + 1)).
      { rewrite <- Z.pow_add_r by lia. f_equal. unfold l. lia. }
      pose proof (pow2_pos (l + 1) ltac:(lia)). nia.
Qed.

Lemma pad_overflows (t x : Z) :
  0 < t -> t * 2 ^ 1024 <= x -> pad t x = Err FloatOverflow.
Proof.
  intros Ht Hx.
  pose proof (pow2_pos 1024 ltac:(lia)) as HP.
  assert (Hx0 : 0 < x) by nia.
  unfold pad, Binary64.true_divide.
  destruct (Z.eqb_spec t 0) as [|_]; [lia|].
  destruct (Z.eqb_spec x 0) as [|_]; [lia|].
  rewrite (Z.abs_eq x), (Z.abs_eq t) by lia.
  destruct (ilog2_upper x t Hx0 Ht) as [Up _].
  unfold Binary64.ulp_exponent.
  set (l := Binary64.ilog2 x t) in *.
  assert (Hl : 1024 <= l).
  { destruct (Z_le_gt_dec 1024 l) as [H | H]; [exact H|]. exfalso.
    destruct (Z_le_gt_dec 0 (l + 1)) as [H0 | H0].
    - specialize (Up H0).
      pose proof (Z.pow_le_mono_r 2 (l + 1) 1024 ltac:(lia) ltac:(lia)). nia.
    - destruct (ilog2_lower x t Hx0 Ht) as [_ Lneg].
      destruct (ilog2_upper x t Hx0 Ht) as [_ Uneg]. fold l in Lneg, Uneg.
      specialize (Uneg ltac:(lia)).
      pose proof (pow2_pos (- (l + 1)) ltac:(lia)). nia. }
  set (e := Z.max (l - 52) (-1074)).
  assert (He : 971 < e) by (unfold e; lia).
  destruct (Binary64.scaled x t (- e)) as [p q].
  destruct (Z.ltb_spec 971 e) as [_ | H]; [|lia].
  reflexivity.
Qed.

(** X8.  [render_gaussians] fails when the padding fails, whatever its
    collaborators return: with ZeroDivisionError for a tile size of 0, and
    with OverflowError for a tile size t > 0 and a first image dimension of at
    least t * 2^1024, whose float quotient is out of range. *)
Theorem render_fails_with_pad
  (Gaussians Projected Depth Feature Overlap Ranges Pixel : Type)
  (contiguous : Gaussians -> Gaussians)
  (project : Gaussians -> Projected)
  (depth : Gaussians -> Depth)
  (feature : Gaussians -> Feature)
  (map_to_tiles : Projected -> Depth -> Z * Z -> Z -> Overlap * Ranges)
  (rasterize : Projected -> Feature -> Ranges -> Overlap -> Z * Z -> Config ->
               list (list Pixel))
  (gaussians : Gaussians) (w h t : Z) :
  (t = 0 ->
     pad t w = Err ZeroDivision /\
     render_gaussians Gaussians Projected Depth Feature Overlap Ranges Pixel
       contiguous project depth feature map_to_tiles rasterize gaussians (w, h) t
     = Err ZeroDivision) /\
  (0 < t -> t * 2 ^ 1024 <= w ->
     pad t w = Err FloatOverflow /\
     render_gaussians Gaussians Projected Depth Feature Overlap Ranges Pixel
       contiguous project depth feature map_to_tiles rasterize gaussians (w, h) t
     = Err FloatOverflow).
Proof.
  split.
  - intros ->. split; [reflexivity|]. reflexivity.
  - intros Ht Hw. pose proof (pad_overflows t w Ht Hw) as Hp.
    split; [exact Hp|].
    unfold render_gaussians, pad_to_tile. cbn [fst snd]. rewrite Hp. reflexivity.
Qed.

Lemma render_fails_with_pad_witness :
  render_gaussians unit unit unit unit unit unit Z
    (fun g => g) (fun g => g) (fun g => g) (fun g => g)
    (fun _ _ _ _ => (tt, tt)) (fun _ _ _ _ _ _ => [[0]])
    tt (0, 5) 0 = Err ZeroDivision /\
  render_gaussians unit unit unit unit unit unit Z
    (fun g => g) (fun g => g) (fun g => g) (fun g => g)
    (fun _ _ _ _ => (tt, tt)) (fun _ _ _ _ _ _ => [[0]])
    tt (16 * 2 ^ 1024, 5) 16 = Err FloatOverflow.
Proof.
  split.
  - apply (render_fails_with_pad unit unit unit unit unit unit Z
             (fun g => g) (fun g => g) (fun g => g) (fun g => g)
             (fun _ _ _ _ => (tt, tt)) (fun _ _ _ _ _ _ => [[0]])
             tt 0 5 0). reflexivity.
  - apply (render_fails_with_pad unit unit unit unit unit unit Z
             (fun g => g) (fun g => g) (fun g => g) (fun g => g)
             (fun _ _ _ _ => (tt, tt)) (fun _ _ _ _ _ _ => [[0]])
             tt (16 * 2 ^ 1024) 5 16); lia.
Defined.

(* ========================================================================= *)
(** * Properties of the frustum culling *)

Section CullingFacts.
Context {R : Type} {SR : Scalar R}.
Variable sleb : R -> R -> bool.
Variables Vec3 Mat4 : Type.
Variable point_to_image : Vec3 -> Mat4 -> (R * R) * R.
Variable pointcloud : list Vec3.
Variable T : Mat4.
Variable rest : list Mat4.
Variables near_plane far_plane : R.
Variable image_size : Z * Z.
Variable margin_pixels : Z.

Lemma cull_point_step (point_id : Z) (mask : list bool) :
  cull_point sleb Vec3 Mat4 point_to_image pointcloud (T :: rest) near_plane
    far_plane image_size margin_pixels point_id mask
  = (position <- aget pointcloud point_id ;;
     aset mask point_id
       (visible sleb Vec3 Mat4 point_to_image T near_plane far_plane image_size
          margin_pixels position)).
Proof.
  unfold cull_point, visible.
  destruct (aget pointcloud point_id) as [p|]; cbn [bind]; [|reflexivity].
  change (aget (T :: rest) 0) with (Ok T). cbn [bind].
  destruct (point_to_image p T) as [pixel depth]. reflexivity.
Qed.

(** The first [n] iterations of the kernel's loop. *)
Lemma cull_prefix (mask : list bool) (n : nat) :
  (n <= length pointcloud)%nat -> (n <= length mask)%nat ->
  exists r,
    foldM (cull_point sleb Vec3 Mat4 point_to_image pointcloud (T :: rest)
             near_plane far_plane image_size margin_pixels)
          (range (Z.of_nat n)) mask = Ok r /\
    length r = length mask /\
    (forall i, (i < n)%nat ->
       nth_error r i
       = option_map (visible sleb Vec3 Mat4 point_to_image T near_plane
                       far_plane image_size margin_pixels)
                    (nth_error pointcloud i)) /\
    (forall i, (n <= i)%nat -> nth_error r i = nth_error mask i).
Proof.
  induction n as [|n IH]; intros Hp Hm.
  - exists mask. split; [reflexivity|]. split; [reflexivity|].
    split; [intros i Hi; lia | reflexivity].
  - destruct (IH ltac:(lia) ltac:(lia)) as [r [Hr [Hlen [Hlo Hhi]]]].
    rewrite Nat2Z.inj_succ. unfold Z.succ. rewrite range_succ by lia.
    rewrite foldM_app, Hr. cbn [bind foldM].
    rewrite cull_point_step.
    destruct (nth_error pointcloud n) as [p|] eqn:Ep;
      [|apply nth_error_None in Ep; lia].
    assert (Hg : aget pointcloud (Z.of_nat n) = Ok p)
      by (apply aget_Ok_iff; rewrite Nat2Z.id; split; [lia | exact Ep]).
    rewrite Hg. cbn [bind].
    rewrite aset_Ok by lia. cbn [bind]. rewrite Nat2Z.id.
    eexists. split; [reflexivity|]. split; [rewrite update_length; exact Hlen|].
    split.
    + intros i Hi. destruct (Nat.eq_dec i n) as [-> | Hne].
      * rewrite nth_error_update_same by lia. rewrite Ep. reflexivity.
      * rewrite nth_error_update_other by lia. apply Hlo. lia.
    + intros i Hi. rewrite nth_error_update_other by lia. apply Hhi. lia.
Qed.

(** X9.  Given a camera matrix and a mask of at least N entries, N the number
    of points, the kernel overwrites the first N entries of the mask with the
    visibility of the points in order, and leaves the entries after them as
    they were. *)
Theorem culling_kernel_fills_the_mask (mask : list bool) :
  (length pointcloud <= length mask)%nat ->
  frustum_culling_kernel sleb Vec3 Mat4 point_to_image pointcloud (T :: rest)
    mask near_plane far_plane image_size margin_pixels
  = Ok (map (visible sleb Vec3 Mat4 point_to_image T near_plane far_plane
               image_size margin_pixels) pointcloud
        ++ skipn (length pointcloud) mask).
Proof.
  unfold frustum_culling_kernel. intros Hlen.
  destruct (cull_prefix mask (length pointcloud) ltac:(lia) Hlen)
    as [r [Hr [Hl [Hlo Hhi]]]].
  rewrite Hr. f_equal. apply nth_error_ext. intros i.
  destruct (Nat.lt_ge_cases i (length pointcloud)) as [Hi | Hi].
  - rewrite nth_error_app1 by (rewrite length_map; exact Hi).
    rewrite nth_error_map. apply Hlo. exact Hi.
  - rewrite nth_error_app2 by (rewrite length_map; exact Hi).
    rewrite length_map, nth_error_skipn. rewrite (Hhi i Hi).
    f_equal. lia.
Qed.

End CullingFacts.

Section CullingEntry.
Context {R : Type} {SR : Scalar R}.
Variable sleb : R -> R -> bool.
Variables Vec3 Mat4 : Type.
Variable point_to_image : Vec3 -> Mat4 -> (R * R) * R.

(** X10.  [frustum_culling] returns one mask entry per point, in the order of
    the points, each the visibility of its own point under the first camera
    matrix: nothing of the zero-filled mask it starts from is left.  An empty
    point cloud gives an empty mask whatever the camera holds. *)
Theorem frustum_culling_mask (pointcloud : list Vec3)
  (camera_params : CameraParams R Mat4) (margin_pixels : Z) :
  (forall T rest,
     cam_T_image_world camera_params = T :: rest ->
     frustum_culling sleb Vec3 Mat4 point_to_image pointcloud camera_params
       margin_pixels
     = Ok (map (visible sleb Vec3 Mat4 point_to_image T
                  (cam_near_plane camera_params) (cam_far_plane camera_params)
                  (cam_image_size camera_params) margin_pixels) pointcloud)) /\
  (pointcloud = [] ->
     frustum_culling sleb Vec3 Mat4 point_to_image pointcloud camera_params
       margin_pixels = Ok []).
Proof.
  split.
  - intros T rest HT. unfold frustum_culling. rewrite HT.
    pose proof (cull_prefix sleb Vec3 Mat4 point_to_image pointcloud T rest
                  (cam_near_plane camera_params) (cam_far_plane camera_params)
                  (cam_image_size camera_params) margin_pixels
                  (repeat false (length pointcloud)) (length pointcloud)
                  ltac:(lia) ltac:(rewrite repeat_length; lia))
      as [r [Hr [Hl [Hlo _]]]].
    unfold frustum_culling_kernel. rewrite Hr. f_equal.
    apply nth_error_ext. intros i. rewrite repeat_length in Hl.
    destruct (Nat.lt_ge_cases i (length pointcloud)) as [Hi | Hi].
    + rewrite nth_error_map. apply Hlo. exact Hi.
    + rewrite (proj2 (nth_error_None r i)) by lia.
      rewrite (proj2 (nth_error_None _ i)) by (rewrite length_map; lia).
      reflexivity.
  - intros ->. reflexivity.
Qed.

End CullingEntry.

Lemma Qltb_lt (a b : Q) : Qltb a b = true <-> (a < b)%Q.
Proof.
  unfold Qltb. rewrite negb_true_iff. split.
  - intros H. apply Qnot_le_lt. intros Hle. apply Qle_bool_iff in Hle. congruence.
  - intros H. destruct (Qle_bool b a) eqn:E; [|reflexivity].
    apply Qle_bool_iff in E. lra.
Qed.

(** X11.  Over the rationals the visibility test is strict at both planes (a
    point at depth [near_plane] or [far_plane] is culled), and it is monotone
    in the margin: a point kept with a margin is kept with every larger margin,
    as long as the 32-bit sums do not overflow. *)
Theorem culling_is_strict_and_monotone
  (near_plane far_plane : Q) (image_size : Z * Z) (m m' : Z) (pixel : Q * Q)
  (depth : Q) :
  ((depth <= near_plane)%Q \/ (far_plane <= depth)%Q ->
     in_view (SR := QScalar) Qle_bool near_plane far_plane image_size m pixel depth
     = false) /\
  (0 <= fst image_size -> 0 <= snd image_size ->
   -2147483647 <= m -> m <= m' ->
   fst image_size + m' <= I32.max_int -> snd image_size + m' <= I32.max_int ->
   in_view (SR := QScalar) Qle_bool near_plane far_plane image_size m pixel depth
     = true ->
   in_view (SR := QScalar) Qle_bool near_plane far_plane image_size m' pixel depth
     = true).
Proof.
  unfold in_view. cbn [sltb ofZ QScalar QScalar_with]. split.
  - intros [H | H].
    + replace (Qltb near_plane depth) with false; [reflexivity|].
      symmetry. apply not_true_is_false. rewrite Qltb_lt. lra.
    + replace (Qltb depth far_plane) with false;
        [now rewrite andb_false_r|].
      symmetry. apply not_true_is_false. rewrite Qltb_lt. lra.
  - unfold I32.max_int. intros Hw Hh Hm Hmm Hbw Hbh.
    rewrite !sub_exact, !add_exact by lia.
    rewrite !andb_true_iff, !Qltb_lt, !Qle_bool_iff.
    intros [[[[[H1 H2] H3] H4] H5] H6].
    assert (E1 : (inject_Z (0 - m') <= inject_Z (0 - m))%Q)
      by (rewrite <- Zle_Qle; lia).
    assert (E2 : (inject_Z (fst image_size + m)
                  <= inject_Z (fst image_size + m'))%Q)
      by (rewrite <- Zle_Qle; lia).
    assert (E3 : (inject_Z (snd image_size + m)
                  <= inject_Z (snd image_size + m'))%Q)
      by (rewrite <- Zle_Qle; lia).
    repeat split; lra.
Qed.

Lemma culling_is_strict_and_monotone_witness :
  in_view (SR := QScalar) Qle_bool 1%Q 10%Q (4, 4) 0 (5%Q, 1%Q) 2%Q = false /\
  in_view (SR := QScalar) Qle_bool 1%Q 10%Q (4, 4) 2 (5%Q, 1%Q) 2%Q = true /\
  in_view (SR := QScalar) Qle_bool 1%Q 10%Q (4, 4) 3 (5%Q, 1%Q) 2%Q = true.
Proof.
  split; [reflexivity|]. split; [reflexivity|].
  apply (proj2 (culling_is_strict_and_monotone 1%Q 10%Q (4, 4) 2 3 (5%Q, 1%Q)
                  2%Q));
    try (vm_compute; discriminate); try lia; reflexivity.
Defined.

(* ========================================================================= *)
(** * Properties of [modify_state] and [replace_dict] *)

Lemma getitem_unique {V} (d : Py.dict V) (k : Py.key) (v : V) :
  NoDup (Py.keys d) -> In (k, v) d -> Py.getitem d k = Py.Return v.
Proof.
  induction d as [|[k' v'] d IH]; intros Hnd Hin; [destruct Hin|].
  cbn [Py.keys map fst] in Hnd. apply NoDup_cons_iff in Hnd.
  destruct Hnd as [Hk Hnd]. cbn [Py.getitem].
  destruct Hin as [E | Hin].
  - inversion E; subst. now rewrite String.eqb_refl.
  - destruct (String.eqb_spec k k') as [-> | Hne].
    + exfalso. apply Hk. apply in_map_iff. exists (k', v). now split.
    + now apply IH.
Qed.

Lemma modify_items {V} (state : Py.dict V) (state_keys : list Py.key)
  (f : V -> V) (items : list (Py.key * V)) :
  NoDup (Py.keys state) ->
  (forall kv, In kv items -> In kv state) ->
  Py.comprehension
    (fun kv =>
       if Py.contains state_keys (fst kv)
       then Py.and_then (Py.Return (f (snd kv))) (fun v => Py.Return (fst kv, v))
       else Py.and_then (Py.getitem state (fst kv))
              (fun v => Py.Return (fst kv, v)))
    items
  = Py.Return
      (map (fun kv => (fst kv, if Py.contains state_keys (fst kv)
                               then f (snd kv) else snd kv)) items).
Proof.
  intros Hkeys.
  induction items as [|[k v] items IH]; intros Hin; [reflexivity|].
  cbn [Py.comprehension map fst snd].
  rewrite IH by (intros kv Hkv; apply Hin; now right).
  destruct (Py.contains state_keys k); cbn [Py.and_then]; [reflexivity|].
  rewrite (getitem_unique state k v Hkeys) by (apply Hin; now left).
  reflexivity.
Qed.

Lemma modify_state_pure {V} (state : Py.dict V) (state_keys : list Py.key)
  (f : V -> V) :
  NoDup (Py.keys state) ->
  Py.modify_state state (fun v => Py.Return (f v)) state_keys
  = Py.Return
      (map (fun kv => (fst kv, if Py.contains state_keys (fst kv)
                               then f (snd kv) else snd kv)) state).
Proof.
  intros Hkeys. unfold Py.modify_state.
  apply modify_items; [exact Hkeys | auto].
Qed.

Lemma modified_keys {V} (state : Py.dict V) (h : Py.key * V -> V) :
  Py.keys (map (fun kv => (fst kv, h kv)) state) = Py.keys state.
Proof. unfold Py.keys. rewrite map_map. reflexivity. Qed.

(** X14.  On a state whose keys are distinct (as those of a [dict] are) and
    for a function that returns, [modify_state] returns a state with the same
    keys in the same order, in which the value of a key of [state_keys] is the
    function's result on the old value and every other value is as it was; the
    lookup [state[k]] of line 19 never raises. *)
Theorem modify_state_maps_the_chosen_keys {V} (state : Py.dict V)
  (state_keys : list Py.key) (f : V -> V) :
  NoDup (Py.keys state) ->
  exists state',
    Py.modify_state state (fun v => Py.Return (f v)) state_keys
      = Py.Return state' /\
    Py.keys state' = Py.keys state /\
    forall k v, In (k, v) state ->
      Py.getitem state' k
      = Py.Return (if Py.contains state_keys k then f v else v).
Proof.
  intros Hkeys. eexists. split; [apply modify_state_pure; exact Hkeys|].
  split; [apply modified_keys|].
  intros k v Hin. apply getitem_unique.
  - rewrite modified_keys. exact Hkeys.
  - apply in_map_iff. exists (k, v). split; [reflexivity | exact Hin].
Qed.

(** X15.  Two calls of [modify_state] with the same keys, with functions that
    return, do what one call with the composed function does. *)
Theorem modify_state_composes {V} (state : Py.dict V)
  (state_keys : list Py.key) (f g : V -> V) :
  NoDup (Py.keys state) ->
  Py.and_then (Py.modify_state state (fun v => Py.Return (f v)) state_keys)
    (fun state' => Py.modify_state state' (fun v => Py.Return (g v)) state_keys)
  = Py.modify_state state (fun v => Py.Return (g (f v))) state_keys.
Proof.
  intros Hkeys.
  rewrite (modify_state_pure state state_keys f Hkeys).
  rewrite (modify_state_pure state state_keys (fun v => g (f v)) Hkeys).
  cbn [Py.and_then].
  rewrite modify_state_pure by (rewrite modified_keys; exact Hkeys).
  f_equal. rewrite map_map. apply map_ext. intros [k v]. cbn [fst snd].
  destruct (Py.contains state_keys k); reflexivity.
Qed.

Lemma modify_items_raise {V} (whole before after : Py.dict V)
  (k : Py.key) (v : V) (e : Py.exn) (f : V -> Py.outcome V)
  (state_keys : list Py.key) :
  NoDup (Py.keys whole) ->
  (forall kv, In kv before -> In kv whole) ->
  Py.contains state_keys k = true ->
  f v = Py.Raise e ->
  (forall k' v', In (k', v') before -> Py.contains state_keys k' = true ->
                 exists v'', f v' = Py.Return v'') ->
  Py.comprehension
    (fun kv =>
       if Py.contains state_keys (fst kv)
       then Py.and_then (f (snd kv)) (fun v => Py.Return (fst kv, v))
       else Py.and_then (Py.getitem whole (fst kv))
              (fun v => Py.Return (fst kv, v)))
    (before ++ (k, v) :: after)
  = Py.Raise e.
Proof.
  intros Hkeys Hsub Hk Hf.
  induction before as [|[k' v'] before IH]; intros Hbefore.
  - cbn [app Py.comprehension fst snd]. rewrite Hk, Hf. reflexivity.
  - cbn [app Py.comprehension fst snd].
    rewrite IH;
      [| intros kv H; apply Hsub; now right
       | intros k2 v2 H; apply Hbefore; now right].
    destruct (Py.contains state_keys k') eqn:Ek.
    + destruct (Hbefore k' v' (or_introl eq_refl) Ek) as [v'' ->].
      reflexivity.
    + rewrite (getitem_unique whole k' v' Hkeys)
        by (apply Hsub; now left).
      reflexivity.
Qed.

(** X16.  An exception of the function stops [modify_state]: when the function
    raises on the value of a chosen key and returns on the values of the
    chosen keys before it (whatever it does on the later ones), the call
    raises what the function raised. *)
Theorem modify_state_raises_what_f_raises {V} (before after : Py.dict V)
  (k : Py.key) (v : V) (e : Py.exn) (f : V -> Py.outcome V)
  (state_keys : list Py.key) :
  NoDup (Py.keys (before ++ (k, v) :: after)) ->
  Py.contains state_keys k = true ->
  f v = Py.Raise e ->
  (forall k' v', In (k', v') before -> Py.contains state_keys k' = true ->
                 exists v'', f v' = Py.Return v'') ->
  Py.modify_state (before ++ (k, v) :: after) f state_keys = Py.Raise e.
Proof.
  intros Hkeys Hk Hf Hbefore. unfold Py.modify_state.
  apply modify_items_raise; auto.
  intros kv H. apply in_or_app. now left.
Qed.

(** X17.  [replace_dict] never returns: line 1 binds [copy] to the module, so
    the call of line 23 raises TypeError whatever the arguments; and the
    comprehension of lines 80-81 returns only for an empty list of parameter
    groups. *)
Theorem replace_dict_always_raises {V} (params_of : Py.dict V -> Py.outcome V)
  (param_groups : list (Py.dict V)) :
  (forall d kwargs : Py.dict V, Py.replace_dict d kwargs = Py.Raise Py.TypeError) /\
  ((exists gs, Py.updated_groups params_of param_groups = Py.Return gs)
   <-> param_groups = []).
Proof.
  split; [reflexivity|]. split.
  - intros [gs H]. destruct param_groups as [|g rest]; [reflexivity|].
    exfalso. unfold Py.updated_groups in H. cbn [Py.comprehension] in H.
    destruct (params_of g); discriminate H.
  - intros ->. exists []. reflexivity.
Qed.

(* ========================================================================= *)
(** * The properties above on the small scenes *)

Lemma kernel_leaves_unlisted_gradients_witness :
  exists mem',
    _backward_kernel (SR := QScalar) Sample.pdf Sample.config 3 Scene.inputs
      Scene.memory = Ok mem' /\
    aget (grad_points (grads mem')) 3 = Ok Scene.held_point /\
    aget (grad_point_features (grads mem')) 3 = Ok [7; 8; 9]%Q /\
    aget (grad_points (grads mem')) 0 <> Ok Sample.zero_point.
Proof.
  eexists. split; [vm_compute; reflexivity|].
  destruct (kernel_leaves_unlisted_gradients (SR := QScalar) Sample.pdf
              Sample.config 3 Scene.inputs Scene.memory _
              ltac:(vm_compute; reflexivity)) as [_ [_ H]].
  destruct (H 3) as [H1 H2]; [cbn; intuition discriminate|].
  split; [rewrite H1; reflexivity|]. split; [rewrite H2; reflexivity|].
  vm_compute. discriminate.
Defined.

Lemma empty_range_is_not_walked_witness :
  pixel_walk (SR := QScalar) Sample.pdf Sample.config Sample.inputs (0, 0) 6
    [1; 1; 1]%Q 3 3 Sample.walk0
  = Ok (shared_init Sample.config, Sample.walk0) /\
  exists mem',
    thread (SR := QScalar) Sample.pdf Sample.config 3 Scene.empty_inputs 1
      0 0 0 0 Sample.memory = Ok mem' /\
    grads mem' = grads Sample.memory.
Proof.
  assert (H1 : 0 < tile_size Sample.config) by reflexivity.
  assert (H2 : tile_area Sample.config <= I32.max_int) by (vm_compute; discriminate).
  assert (H3 : 0 <= 3 <= 3) by lia.
  assert (H4 : 3 <= I32.max_int) by (vm_compute; discriminate).
  destruct (empty_range_is_not_walked (SR := QScalar) Sample.pdf Sample.config
              3 3 H1 H2 H3 H4) as [Hw Ht].
  split; [apply Hw|].
  eexists. split; [vm_compute; reflexivity|].
  destruct (Ht 3%nat Scene.empty_inputs 1 0 0 0 0 Sample.memory _
              ltac:(vm_compute; reflexivity) ltac:(vm_compute; reflexivity))
    as [Hg _].
  exact Hg.
Defined.

Lemma nothing_valid_nothing_changes_witness :
  exists sh,
    pixel_walk (SR := QScalar) Sample.pdf Sample.config Sample.inputs (1, 1) 0
      [1; 1; 1]%Q 0 6 Sample.walk0 = Ok (sh, Sample.walk0).
Proof.
  assert (H1 : 0 < tile_size Sample.config) by reflexivity.
  assert (H2 : tile_area Sample.config <= I32.max_int) by (vm_compute; discriminate).
  assert (H3 : 0 <= 0 <= 6) by lia.
  assert (H4 : 6 <= I32.max_int) by (vm_compute; discriminate).
  assert (H5 : 6 - 0 + tile_area Sample.config - 1 <= I32.max_int)
    by (vm_compute; discriminate).
  assert (H6 : 0 <= 0) by lia.
  exact (nothing_valid_nothing_changes (SR := QScalar) Sample.pdf Sample.config
           Sample.inputs (1, 1) 0 [1; 1; 1]%Q 0 6 Sample.walk0 H1 H2 H3 H4 H5
           Sample_entries_valid H6).
Defined.

Lemma kernel_covers_whole_tiles_only_witness :
  exists mem',
    _backward_kernel (SR := QScalar) Sample.pdf Sample.config 3 Sample.inputs
      Scene.wide_memory = Ok mem' /\
    saved_same_at Scene.wide_memory mem' (2, 0) /\
    aget2 (image_alpha mem') 0 1 <> aget2 (image_alpha Scene.wide_memory) 0 1.
Proof.
  eexists. split; [vm_compute; reflexivity|].
  assert (H1 : 0 < tile_size Sample.config) by reflexivity.
  assert (H2 : fst (shape2 (image_feature Scene.wide_memory)) <= I32.max_int)
    by (vm_compute; discriminate).
  assert (H3 : snd (shape2 (image_feature Scene.wide_memory)) <= I32.max_int)
    by (vm_compute; discriminate).
  pose proof (kernel_covers_whole_tiles_only (SR := QScalar) Sample.pdf
                Sample.config 3 Sample.inputs Scene.wide_memory _ H1 H2 H3
                ltac:(vm_compute; reflexivity)) as H.
  cbv zeta in H. destruct H as [H _].
  split; [apply H; left; vm_compute; discriminate|].
  vm_compute. discriminate.
Defined.

Lemma transmittance_never_decreases_witness :
  exists sh' st',
    pixel_walk (SR := QScalar) Sample.pdf Sample.config Sample.inputs (0, 0) 6
      [1; 1; 1]%Q 0 6 Sample.walk0 = Ok (sh', st') /\
    (T_i Sample.walk0 <= T_i st')%Q.
Proof.
  assert (H1 : (0 <= alpha_threshold Sample.config)%Q)
    by (vm_compute; discriminate).
  assert (H2 : (0 <= clamp_max_alpha Sample.config < 1)%Q)
    by (split; [vm_compute; discriminate | reflexivity]).
  assert (H3 : (0 <= T_i Sample.walk0)%Q) by (vm_compute; discriminate).
  eexists. eexists. split; [vm_compute; reflexivity|].
  exact (transmittance_never_decreases Sample.pdf Sample.config H1 H2
           Sample.inputs (0, 0) 6 [1; 1; 1]%Q 0 6 Sample.walk0 _ _
           ltac:(vm_compute; reflexivity) H3).
Defined.

Lemma culling_kernel_fills_the_mask_witness :
  frustum_culling_kernel (SR := QScalar) Qle_bool (Q * Q * Q)%type Q
    Scene.pinhole Scene.pointcloud [2%Q] [false; false; false; false; true]
    1%Q 10%Q (8, 8) 0
  = Ok [true; false; false; false; true].
Proof.
  assert (H : (length Scene.pointcloud
               <= length [false; false; false; false; true])%nat)
    by (cbn; lia).
  rewrite (culling_kernel_fills_the_mask (SR := QScalar) Qle_bool
             (Q * Q * Q)%type Q Scene.pinhole Scene.pointcloud 2%Q [] 1%Q 10%Q
             (8, 8) 0 [false; false; false; false; true] H).
  reflexivity.
Defined.

Lemma frustum_culling_mask_witness :
  frustum_culling (SR := QScalar) Qle_bool (Q * Q * Q)%type Q Scene.pinhole
    Scene.pointcloud Scene.camera 0
  = Ok [true; false; false; false].
Proof.
  destruct (frustum_culling_mask (SR := QScalar) Qle_bool (Q * Q * Q)%type Q
              Scene.pinhole Scene.pointcloud Scene.camera 0) as [H _].
  rewrite (H 2%Q [] eq_refl). reflexivity.
Defined.

Lemma modify_state_maps_the_chosen_keys_witness :
  exists state',
    Py.modify_state Scene.state (fun v => Py.Return (v * 2))
      Py.default_state_keys = Py.Return state' /\
    Py.keys state' = Py.keys Scene.state /\
    Py.getitem state' Scene.exp_avg = Py.Return 10 /\
    Py.getitem state' Scene.step = Py.Return 3.
Proof.
  assert (Hk : NoDup (Py.keys Scene.state)).
  { repeat (constructor; [cbn; intuition discriminate|]). constructor. }
  destruct (modify_state_maps_the_chosen_keys Scene.state Py.default_state_keys
              (fun v => v * 2) Hk) as [state' [H1 [H2 H3]]].
  exists state'. split; [exact H1|]. split; [exact H2|]. split.
  - apply (H3 Scene.exp_avg 5). cbn. auto.
  - apply (H3 Scene.step 3). cbn. auto.
Defined.

Lemma modify_state_composes_witness :
  Py.and_then
    (Py.modify_state Scene.state (fun v => Py.Return (v * 2))
       Py.default_state_keys)
    (fun state' =>
       Py.modify_state state' (fun v => Py.Return (v + 1)) Py.default_state_keys)
  = Py.modify_state Scene.state (fun v => Py.Return (v * 2 + 1))
      Py.default_state_keys.
Proof.
  assert (Hk : NoDup (Py.keys Scene.state)).
  { repeat (constructor; [cbn; intuition discriminate|]). constructor. }
  exact (modify_state_composes Scene.state Py.default_state_keys
           (fun v => v * 2) (fun v => v + 1) Hk).
Defined.

Lemma modify_state_raises_what_f_raises_witness :
  Py.modify_state Scene.state Scene.picky Py.default_state_keys
  = Py.Raise Scene.five.
Proof.
  assert (Hk : NoDup (Py.keys ([(Scene.step, 3)]
                               ++ (Scene.exp_avg, 5)
                                  :: [(Scene.exp_avg_sq, 7)]))).
  { repeat (constructor; [cbn; intuition discriminate|]). constructor. }
  apply (modify_state_raises_what_f_raises [(Scene.step, 3)]
           [(Scene.exp_avg_sq, 7)] Scene.exp_avg 5
           Scene.five Scene.picky Py.default_state_keys Hk).
  - reflexivity.
  - reflexivity.
  - intros k' v' [E | []] Hc. inversion E; subst. discriminate Hc.
Defined.
